(** * Bouncers: the React client of the billiard simulator

    A shallow embedding of the TypeScript client (billiard-ui):
    - [apiTypes.ts]: the wire types shared with the Rust back end;
    - [samples.ts]: the builders of the unit-square sample request;
    - [components/UnitSquareSimulation.tsx] and [components/HealthStatus.tsx]:
      the two components that talk to the back end.

    JavaScript numbers are IEEE 754 binary64 values and are modelled by the
    primitive floats.  Objects are modelled twice: as records (the
    TypeScript view) and as cells of a heap of mutable objects (the
    run-time view); the two views are related below.  An [async] function
    is a tree of setter calls and awaits, run one segment at a time by the
    event loop.

    The engine that answers the requests is the Rust crate
    [billiard_core]; its sources are not part of the client.  Where a
    property needs it (the geometry of a boundary, the step loop), it is
    modelled from the specification, and said to be. *)

From Stdlib Require Import PrimFloat List String Ascii Bool Arith Lia.
From Stdlib Require Import DecimalString.
Import ListNotations.

Set Warnings "-inexact-float,-register-all".
Local Open Scope string_scope.
Local Open Scope list_scope.

(** ** Numbers *)

Definition number : Type := float.

(** [Math.PI], a read-only property of the standard [Math] object: the
    binary64 value closest to pi. *)
Definition Math_PI : number := 3.141592653589793%float.

(** ** apiTypes.ts *)

Module Vec2.
Record t : Type := mk { x : number; y : number }.
End Vec2.
Abbreviation Vec2 := Vec2.t.

(** [SegmentSpec] is a union of two object types told apart by the literal
    type of their [kind] property. *)
Inductive SegmentSpec : Type :=
| line (start end_ : Vec2)
| circular_arc (center : Vec2) (radius start_angle end_angle : number)
    (ccw : bool).

Module BoundarySpec.
Record t : Type := mk { name : string; segments : list SegmentSpec }.
End BoundarySpec.
Abbreviation BoundarySpec := BoundarySpec.t.

Module TableSpec.
Record t : Type := mk { outer : BoundarySpec; obstacles : list BoundarySpec }.
End TableSpec.
Abbreviation TableSpec := TableSpec.t.

Module BoundaryStateDto.
Record t : Type := mk { component_index : number; s : number; theta : number }.
End BoundaryStateDto.
Abbreviation BoundaryStateDto := BoundaryStateDto.t.

Module SimulateRequest.
Record t : Type := mk
    { table : TableSpec;
      initial_state : BoundaryStateDto;
      max_steps : number;
      epsilon : number }.
End SimulateRequest.
Abbreviation SimulateRequest := SimulateRequest.t.

Module CollisionDto.
Record t : Type := mk
    { step : number;
      component_index : number;
      segment_index : number;
      s : number;
      theta : number;
      x : number;
      y : number }.
End CollisionDto.
Abbreviation CollisionDto := CollisionDto.t.

Module SimulateResponse.
Record t : Type := mk { collisions : list CollisionDto }.
End SimulateResponse.
Abbreviation SimulateResponse := SimulateResponse.t.

Module HealthResponse.
Record t : Type := mk { status : string }.
End HealthResponse.
Abbreviation HealthResponse := HealthResponse.t.

(** ** The wire layer

    [JSON.stringify] walks the own properties of an object in the order in
    which they were created; [json] is the tree it walks: the keys, the
    nesting, and at the leaves the values themselves.  How a number is
    then printed is not modelled: in the text, [-0] reads [0], and [NaN]
    and the infinities read [null]. *)

Inductive json : Type :=
| JNum (n : number)
| JStr (s : string)
| JBool (b : bool)
| JArr (elems : list json)
| JObj (props : list (string * json)).

Definition keys (j : json) : list string :=
  match j with
  | JObj props => map fst props
  | _ => []
  end.

Definition field (k : string) (j : json) : option json :=
  match j with
  | JObj props =>
      option_map snd (find (fun p => String.eqb (fst p) k) props)
  | _ => None
  end.

Module Wire.

Definition Vec2 (v : Vec2) : json :=
    JObj [("x", JNum (Vec2.x v)); ("y", JNum (Vec2.y v))].

Definition SegmentSpec (sg : SegmentSpec) : json :=
    match sg with
    | line st en =>
        JObj [("kind", JStr "line"); ("start", Vec2 st); ("end", Vec2 en)]
    | circular_arc c r a0 a1 ccw =>
        JObj [("kind", JStr "circular_arc"); ("center", Vec2 c);
              ("radius", JNum r); ("start_angle", JNum a0);
              ("end_angle", JNum a1); ("ccw", JBool ccw)]
    end.

Definition BoundarySpec (b : BoundarySpec) : json :=
    JObj [("name", JStr (BoundarySpec.name b));
          ("segments", JArr (map SegmentSpec (BoundarySpec.segments b)))].

Definition TableSpec (t : TableSpec) : json :=
    JObj [("outer", BoundarySpec (TableSpec.outer t));
          ("obstacles", JArr (map BoundarySpec (TableSpec.obstacles t)))].

Definition BoundaryStateDto (b : BoundaryStateDto) : json :=
    JObj [("component_index", JNum (BoundaryStateDto.component_index b));
          ("s", JNum (BoundaryStateDto.s b));
          ("theta", JNum (BoundaryStateDto.theta b))].

Definition SimulateRequest (r : SimulateRequest) : json :=
    JObj [("table", TableSpec (SimulateRequest.table r));
          ("initial_state", BoundaryStateDto (SimulateRequest.initial_state r));
          ("max_steps", JNum (SimulateRequest.max_steps r));
          ("epsilon", JNum (SimulateRequest.epsilon r))].

Definition CollisionDto (c : CollisionDto) : json :=
    JObj [("step", JNum (CollisionDto.step c));
          ("component_index", JNum (CollisionDto.component_index c));
          ("segment_index", JNum (CollisionDto.segment_index c));
          ("s", JNum (CollisionDto.s c));
          ("theta", JNum (CollisionDto.theta c));
          ("x", JNum (CollisionDto.x c));
          ("y", JNum (CollisionDto.y c))].

Definition SimulateResponse (r : SimulateResponse) : json :=
    JObj [("collisions", JArr (map CollisionDto (SimulateResponse.collisions r)))].

End Wire.

(** The discriminant of a segment, as read by [sg.kind]. *)
Definition kind (sg : SegmentSpec) : string :=
  match sg with
  | line _ _ => "line"
  | circular_arc _ _ _ _ _ => "circular_arc"
  end.

(** ** samples.ts *)

Module Samples.
Local Open Scope float_scope.

Definition unitSquareBoundary (name : option string) : BoundarySpec :=
    let name := match name with Some n => n | None => "outer" end in
    {| BoundarySpec.name := name;
       BoundarySpec.segments :=
         [ line {| Vec2.x := 0.0; Vec2.y := 0.0 |} {| Vec2.x := 1.0; Vec2.y := 0.0 |};
           line {| Vec2.x := 1.0; Vec2.y := 0.0 |} {| Vec2.x := 1.0; Vec2.y := 1.0 |};
           line {| Vec2.x := 1.0; Vec2.y := 1.0 |} {| Vec2.x := 0.0; Vec2.y := 1.0 |};
           line {| Vec2.x := 0.0; Vec2.y := 1.0 |} {| Vec2.x := 0.0; Vec2.y := 0.0 |} ] |}.

Definition unitSquareTableSpec : TableSpec :=
    {| TableSpec.outer := unitSquareBoundary (Some "outer");
       TableSpec.obstacles := [] |}.

Definition verticalOrbitInitialState : BoundaryStateDto :=
    {| BoundaryStateDto.component_index := 0;
       BoundaryStateDto.s := 0.5;
       BoundaryStateDto.theta := Math_PI / 2 |}.

Definition makeUnitSquareSimRequest : SimulateRequest :=
    {| SimulateRequest.table := unitSquareTableSpec;
       SimulateRequest.initial_state := verticalOrbitInitialState;
       SimulateRequest.max_steps := 4;
       SimulateRequest.epsilon := 1e-8 |}.

End Samples.

(** ** Run-time objects

    At run time every object or array literal creates a fresh mutable
    object.  A builder is therefore a computation over the heap of
    objects: it may read what is there and it allocates its result. *)

Module Js.

Definition loc : Type := nat.

Inductive value : Type :=
| Num (n : number)
| Str (s : string)
| Bool (b : bool)
| Ref (l : loc).

Inductive object : Type :=
| Obj (props : list (string * value))
| Arr (elems : list value).

Definition heap : Type := list object.

Definition M (A : Type) : Type := heap -> A * heap.

Definition ret {A} (a : A) : M A := fun h => (a, h).

Definition bind {A B} (m : M A) (k : A -> M B) : M B :=
  fun h => let (a, h') := m h in k a h'.

Definition new (o : object) : M value :=
  fun h => (Ref (List.length h), h ++ [o]).

Fixpoint sequence {A} (ms : list (M A)) : M (list A) :=
  match ms with
  | [] => ret []
  | m :: ms' => bind m (fun a => bind (sequence ms') (fun l => ret (a :: l)))
  end.

(** Literals.  The values of the properties (the elements of the array)
    are evaluated from left to right and the object is allocated with
    them; in which order the nested objects get their locations cannot be
    observed. *)
Definition num (n : number) : M value := ret (Num n).
Definition str (s : string) : M value := ret (Str s).
Definition bool_ (b : bool) : M value := ret (Bool b).

Definition obj (props : list (string * M value)) : M value :=
  bind (sequence (map snd props))
       (fun vs => new (Obj (combine (map fst props) vs))).

Definition arr (elems : list (M value)) : M value :=
  bind (sequence elems) (fun vs => new (Arr vs)).

(** Reading a value back as the tree [JSON.stringify] walks; [fuel] bounds
    the depth of the walk. *)
Fixpoint mapM {A B} (f : A -> option B) (l : list A) : option (list B) :=
  match l with
  | [] => Some []
  | a :: l' =>
      match f a, mapM f l' with
      | Some b, Some bs => Some (b :: bs)
      | _, _ => None
      end
  end.

Fixpoint reify (fuel : nat) (h : heap) (v : value) : option json :=
  match v with
  | Num n => Some (JNum n)
  | Str s => Some (JStr s)
  | Bool b => Some (JBool b)
  | Ref l =>
      match fuel with
      | O => None
      | S fuel' =>
          match nth_error h l with
          | None => None
          | Some (Arr es) => option_map JArr (mapM (reify fuel' h) es)
          | Some (Obj ps) =>
              option_map JObj
                (mapM (fun p => option_map (pair (fst p)) (reify fuel' h (snd p))) ps)
          end
      end
  end.

Definition reads (h : heap) (v : value) (t : json) : Prop :=
  exists fuel, reify fuel h v = Some t.

(** A location is fresh for [h] when no cell of [h] lives there. *)
Definition fresh_for (h : heap) (v : value) : Prop :=
  match v with
  | Ref l => List.length h <= l
  | _ => True
  end.

(** [builds m t]: from every heap, [m] leaves the cells that are there as
    they are and allocates a value that reads as [t] and that no earlier
    cell can alias. *)
Definition builds (m : M value) (t : json) : Prop :=
  forall h, exists v ext,
    m h = (v, h ++ ext) /\ fresh_for h v /\ reads (h ++ ext) v t.

(** What a call of [m] in the heap [h] returns, read as a tree, and whether
    the call leaves the cells of [h] alone. *)
Definition result_in (m : M value) (h : heap) (t : json) : Prop :=
  reads (snd (m h)) (fst (m h)) t.

Definition keeps (m : M value) (h : heap) : Prop :=
  exists ext, snd (m h) = h ++ ext.

(** The value returned is newly allocated: nothing that was in [h] can
    hold a reference to it. *)
Definition returns_fresh (m : M value) (h : heap) : Prop :=
  fresh_for h (fst (m h)).

(** [isolated m t]: what [m] returns reads as [t] whatever the cells that
    were there before the call contain afterwards: the value shares
    nothing with them. *)
Definition isolated (m : M value) (t : json) : Prop :=
  forall h, exists v ext,
    m h = (v, h ++ ext)
    /\ forall h', List.length h' = List.length h -> reads (h' ++ ext) v t.

Local Open Scope float_scope.

(** samples.ts, as it runs. *)
Definition unitSquareBoundary (name : option string) : M value :=
  let name := match name with Some n => n | None => "outer" end in
  obj [ ("name", str name);
        ("segments",
          arr [ obj [ ("kind", str "line");
                      ("start", obj [("x", num 0.0); ("y", num 0.0)]);
                      ("end", obj [("x", num 1.0); ("y", num 0.0)]) ];
                obj [ ("kind", str "line");
                      ("start", obj [("x", num 1.0); ("y", num 0.0)]);
                      ("end", obj [("x", num 1.0); ("y", num 1.0)]) ];
                obj [ ("kind", str "line");
                      ("start", obj [("x", num 1.0); ("y", num 1.0)]);
                      ("end", obj [("x", num 0.0); ("y", num 1.0)]) ];
                obj [ ("kind", str "line");
                      ("start", obj [("x", num 0.0); ("y", num 1.0)]);
                      ("end", obj [("x", num 0.0); ("y", num 0.0)]) ] ]) ].

Definition unitSquareTableSpec : M value :=
  obj [ ("outer", unitSquareBoundary (Some "outer"));
        ("obstacles", arr []) ].

Definition verticalOrbitInitialState : M value :=
  obj [ ("component_index", num 0);
        ("s", num 0.5);
        ("theta", num (Math_PI / 2)) ].

Definition makeUnitSquareSimRequest : M value :=
  obj [ ("table", unitSquareTableSpec);
        ("initial_state", verticalOrbitInitialState);
        ("max_steps", num 4);
        ("epsilon", num 1e-8) ].

End Js.

(** ** The shapes the specification names

    The field lists of section 6 of the specification, word for word; the
    declarations of [apiTypes.ts] are compared with them below. *)

Module Spec.

Definition boundary_state_fields : list string :=
  ["component_index"; "s"; "theta"].

Definition collision_record_fields : list string :=
  ["step"; "component_index"; "segment_index"; "s"; "theta"; "x"; "y"].

Definition simulation_request_fields : list string :=
  ["table"; "initial_state"; "max_steps"; "epsilon"].

Definition line_fields : list string := ["start"; "end"].

Definition arc_fields : list string :=
  ["center"; "radius"; "start_angle"; "end_angle"; "ccw"].

End Spec.

(** ** The curve a boundary stands for

    The client only describes a table; what the description means is
    computed by the Rust engine ([billiard_core]), whose sources are not
    part of the client.  The definitions of this module follow the
    specification. *)

Module Geometry.
Local Open Scope float_scope.

Section Curves.

(** The cosine, the sine and the signed angle swept by an arc from [a0] to
    [a1] in the direction [ccw]: the engine's, left open here. *)
Variables cos sin : number -> number.
Variable arc_sweep : number -> number -> bool -> number.

(** Modelled from the spec: [center + radius * unit_vector(angle)] of
    section 4.2, the engine's arc geometry being absent. *)
Definition on_circle (c : Vec2) (r a : number) : Vec2 :=
  {| Vec2.x := Vec2.x c + r * cos a; Vec2.y := Vec2.y c + r * sin a |}.

(** Modelled from the spec: the point where a Segment of section 3 starts,
    the engine's segment type being absent. *)
Definition seg_start (sg : SegmentSpec) : Vec2 :=
  match sg with
  | line st _ => st
  | circular_arc c r a0 _ _ => on_circle c r a0
  end.

(** Modelled from the spec: the point where a Segment of section 3 ends,
    the engine's segment type being absent. *)
Definition seg_end (sg : SegmentSpec) : Vec2 :=
  match sg with
  | line _ en => en
  | circular_arc c r _ a1 _ => on_circle c r a1
  end.

(** Modelled from the spec: the length of a line (Euclidean length of
    section 4.1) and of an arc (radius times sweep), the engine's geometry
    primitives being absent. *)
Definition seg_length (sg : SegmentSpec) : number :=
  match sg with
  | line st en =>
      let dx := Vec2.x en - Vec2.x st in
      let dy := Vec2.y en - Vec2.y st in
      sqrt (dx * dx + dy * dy)
  | circular_arc _ r a0 a1 ccw => r * abs (arc_sweep a0 a1 ccw)
  end.

(** Modelled from the spec: the first half of the invariant of a Boundary
    Curve (section 3), which the engine checks when it builds a table:
    segment [i] ends where segment [i+1] starts. *)
Definition consecutive_connected (segs : list SegmentSpec) : Prop :=
  forall i a b,
    nth_error segs i = Some a -> nth_error segs (S i) = Some b ->
    seg_end a = seg_start b.

(** Modelled from the spec: the second half of that invariant: the last
    segment ends where the first one starts. *)
Definition loop_closed (segs : list SegmentSpec) : Prop :=
  forall a b,
    nth_error segs (List.length segs - 1) = Some a -> nth_error segs 0 = Some b ->
    seg_end a = seg_start b.

(** Modelled from the spec: the invariant of a Segment (section 3): a
    strictly positive length or sweep. *)
Definition all_positive (segs : list SegmentSpec) : Prop :=
  forall a, In a segs -> (0 <? seg_length a) = true.

(** Modelled from the spec: what the engine's table validation accepts
    (section 3): a sequence of segments that is there, that is, not
    empty, and the three invariants together. *)
Definition valid_boundary (b : BoundarySpec) : Prop :=
  BoundarySpec.segments b <> []
  /\ consecutive_connected (BoundarySpec.segments b)
  /\ loop_closed (BoundarySpec.segments b)
  /\ all_positive (BoundarySpec.segments b).

(** Modelled from the spec: [point_at] of section 4.2, absent with the
    engine: linear interpolation on a line, the swept angle on an arc. *)
Definition point_at (sg : SegmentSpec) (s : number) : Vec2 :=
  match sg with
  | line st en =>
      {| Vec2.x := Vec2.x st + s * (Vec2.x en - Vec2.x st);
         Vec2.y := Vec2.y st + s * (Vec2.y en - Vec2.y st) |}
  | circular_arc c r a0 a1 ccw => on_circle c r (a0 + s * arc_sweep a0 a1 ccw)
  end.

(** Modelled from the spec: the walk through the cumulative table of
    section 4.3, absent with the engine.  Each segment owns a share of the
    parameter proportional to its weight; the shares are half open, so
    that a parameter falls in exactly one of them. *)
Fixpoint locate_from (weights : list number) (target : number) (i : nat)
  : option (nat * number) :=
  match weights with
  | [] => None
  | w :: ws =>
      if target <? w then Some (i, target / w)
      else locate_from ws (target - w) (S i)
  end.

(** Modelled from the spec: the last entry of the cumulative table of
    section 4.3. *)
Definition total (weights : list number) : number :=
  fold_left add weights 0.

(** Modelled from the spec: global [s] in [[0,1)] to segment index and
    local [s] (section 4.3). *)
Definition locate (weights : list number) (s : number) : option (nat * number) :=
  locate_from weights (s * total weights) 0%nat.

(** Modelled from the spec: the weights of section 4.3 when the parameter
    is proportional to arc length (section 9 leaves the choice open). *)
Definition arc_length_weights (segs : list SegmentSpec) : list number :=
  map seg_length segs.

(** Modelled from the spec: the weights of section 4.3 when every segment
    counts for one unit (the other choice left open by section 9). *)
Definition unit_weights (segs : list SegmentSpec) : list number :=
  map (fun _ => 1) segs.

(** Modelled from the spec: the point of a located parameter, [point_at]
    on the segment found. *)
Definition point_in (segs : list SegmentSpec) (at_ : option (nat * number))
  : option Vec2 :=
  match at_ with
  | Some (i, ls) => option_map (fun sg => point_at sg ls) (nth_error segs i)
  | None => None
  end.

(** Modelled from the spec: the absolute point of a global [s] on a
    Boundary Curve (sections 4.3 and 4.5, step 1). *)
Definition point_of_global (weights : list SegmentSpec -> list number)
    (b : BoundarySpec) (s : number) : option Vec2 :=
  let segs := BoundarySpec.segments b in
  point_in segs (locate (weights segs) s).

(** Modelled from the spec: the same walk through the cumulative table of
    section 4.3 with [s] taken as the distance walked along the curve from
    its first point, not divided by the perimeter.  It is under this
    reading that the scenario of section 8 and the text shown by
    [UnitSquareSimulation.tsx], "starting at (0.5, 0)", describe the
    sample. *)
Definition point_of_distance (b : BoundarySpec) (s : number) : option Vec2 :=
  let segs := BoundarySpec.segments b in
  point_in segs (locate_from (arc_length_weights segs) s 0%nat).

End Curves.

End Geometry.

(** ** The trajectory engine

    The engine runs on the server; the client sees only its answers.  Its
    step loop is modelled from section 4.5 of the specification, over the
    geometry of sections 4.1 to 4.4 taken as given. *)

Module Engine.
Local Open Scope float_scope.

Module State.
(** Modelled from the spec: the Intrinsic State of section 3; the engine
    is the Rust crate [billiard_core], which the client only calls. *)
Record t : Type := mk { component_index : nat; s : number; theta : number }.
End State.

Module Collision.
(** Modelled from the spec: the Collision Record of section 3. *)
Record t : Type := mk
  { step : nat;
    component_index : nat;
    segment_index : nat;
    s : number;
    theta : number;
    x : number;
    y : number }.
End Collision.

Module Hit.
(** Modelled from the spec: what [nearest_forward_intersection] of section
    4.4 returns. *)
Record t : Type := mk
  { t_ : number; component_index : nat; segment_index : nat; local_s : number }.
End Hit.

(** Modelled from the spec: the fatal errors of section 7 that can end a
    run after it has started. *)
Inductive error : Type :=
| DegenerateVectorError
| NoIntersectionError.

(** Modelled from the spec: the two states of section 4.5. *)
Inductive phase : Type :=
| Running
| Done (failure : option error).

(** Modelled from the spec: what the step loop of section 4.5 carries from
    one step to the next. *)
Record machine : Type := mk_machine
  { status : phase;
    step : nat;
    state : State.t;
    collisions : list Collision.t }.

Section Loop.

(** The geometry of sections 4.1 to 4.4, which the loop only calls: the
    point of an intrinsic state, the unit vector of an angle (none when
    the vector is degenerate), the nearest forward intersection, the
    outward normal at a hit, the angle of a vector, and the global
    parameter of a hit. *)
Variable Table : Type.
Variable position : Table -> State.t -> Vec2.
Variable unit_vector : number -> option Vec2.
Variable nearest_forward_intersection :
  Table -> number -> Vec2 -> Vec2 -> option Hit.t.
Variable outward_normal : Table -> Hit.t -> Vec2.
Variable to_angle : Vec2 -> number.
Variable global_s : Table -> Hit.t -> number.

Variable table : Table.
Variable epsilon : number.
Variable max_steps : nat.

(** Modelled from the spec: the dot product of section 4.1. *)
Definition dot (a b : Vec2) : number :=
  Vec2.x a * Vec2.x b + Vec2.y a * Vec2.y b.

(** Modelled from the spec: step 5 of section 4.5,
    [d - 2 (d . n) n]. *)
Definition reflect (d n : Vec2) : Vec2 :=
  let k := 2 * dot d n in
  {| Vec2.x := Vec2.x d - k * Vec2.x n; Vec2.y := Vec2.y d - k * Vec2.y n |}.

(** Modelled from the spec: a fatal error ends the run and keeps the
    records collected so far (sections 4.5 and 7). *)
Definition fail (m : machine) (e : error) : machine :=
  {| status := Done (Some e); step := step m; state := state m;
     collisions := collisions m |}.

(** Modelled from the spec: one transition of the state machine of
    section 4.5, steps 1 to 8. *)
Definition transition (m : machine) : machine :=
  match status m with
  | Done _ => m
  | Running =>
      let origin := position table (state m) in
      match unit_vector (State.theta (state m)) with
      | None => fail m DegenerateVectorError
      | Some direction =>
          match nearest_forward_intersection table epsilon origin direction with
          | None => fail m NoIntersectionError
          | Some hit =>
              let x := Vec2.x origin + Hit.t_ hit * Vec2.x direction in
              let y := Vec2.y origin + Hit.t_ hit * Vec2.y direction in
              let normal := outward_normal table hit in
              let new_theta := to_angle (reflect direction normal) in
              let record :=
                {| Collision.step := step m;
                   Collision.component_index := Hit.component_index hit;
                   Collision.segment_index := Hit.segment_index hit;
                   Collision.s := Hit.local_s hit;
                   Collision.theta := new_theta;
                   Collision.x := x;
                   Collision.y := y |} in
              let next := S (step m) in
              {| status := if Nat.eqb next max_steps then Done None else Running;
                 step := next;
                 state :=
                   {| State.component_index := Hit.component_index hit;
                      State.s := global_s table hit;
                      State.theta := new_theta |};
                 collisions := collisions m ++ [record] |}
          end
      end
  end.

(** Modelled from the spec: the start of a run; [max_steps = 0] is done at
    once. *)
Definition start (initial_state : State.t) : machine :=
  {| status := if Nat.eqb max_steps 0 then Done None else Running;
     step := 0;
     state := initial_state;
     collisions := [] |}.

(** Modelled from the spec: [simulate] of section 6; [max_steps]
    transitions always reach [Done]. *)
Definition simulate (initial_state : State.t) : machine :=
  Nat.iter max_steps transition (start initial_state).

End Loop.

(** What holds of the machine after [k] transitions: the records are
    numbered by the counter ... *)
Definition numbered (m : machine) : Prop :=
  map Collision.step (collisions m) = seq 0 (step m).

(** ... and a machine still running has made exactly [k] steps, fewer
    than [max_steps]. *)
Definition on_schedule (max_steps k : nat) (m : machine) : Prop :=
  match status m with
  | Running => step m = k /\ k < max_steps
  | Done _ => step m <= k
  end.

End Engine.

(** ** Asynchronous functions

    An [async] function runs until its next [await], hands control back,
    and is resumed when the awaited promise settles.  Between two awaits
    nothing else runs.  [Async.t] is the tree of what such a function may
    still do: read the variables it closes over, call a state setter,
    await a request, return or throw. *)

(** What a [catch] clause receives: an [Error] with its message, or a
    value that is not an [Error]. *)
Inductive thrown : Type :=
| ErrorObject (message : string)
| OtherValue.

Inductive settled (X : Type) : Type :=
| Fulfilled (x : X)
| Rejected (reason : thrown).
Arguments Fulfilled {X} x.
Arguments Rejected {X} reason.

(** What [await res.json()] gives, seen through an unchecked cast to [A].
    The cast does not exclude [null], and reading a property of [null]
    throws a [TypeError], whose message is the engine's.  Of any other
    value only the properties read are kept, as what the code makes of
    them. *)
Inductive body (A : Type) : Type :=
| Null (type_error : string)
| NonNull (a : A).
Arguments Null {A} type_error.
Arguments NonNull {A} a.

(** The part of a [Response] the components look at; its body is read
    through the requests [text] and [json] of each component. *)
Module Response.
Record t : Type := mk { ok : bool; status : nat }.
End Response.
Abbreviation Response := Response.t.

(** [`${n}`] for a status code. *)
Definition decimal (n : nat) : string :=
  NilZero.string_of_uint (Nat.to_uint n).

(** [hay.includes(needle)]. *)
Fixpoint includes (needle hay : string) : bool :=
  if String.prefix needle hay then true
  else match hay with
       | EmptyString => false
       | String _ rest => includes needle rest
       end.

Module Async.

Section Programs.
Variables St Upd : Type.
Variable request : Type -> Type.

Inductive t (A : Type) : Type :=
| Return (a : A)
| Throw (e : thrown)
| Get (k : St -> t A)
| Put (u : Upd) (k : t A)
| Await (X : Type) (q : request X) (k : settled X -> t A).

Arguments Return {A} a.
Arguments Throw {A} e.
Arguments Get {A} k.
Arguments Put {A} u k.
Arguments Await {A} X q k.

Fixpoint bind {A B} (p : t A) (f : A -> t B) : t B :=
  match p with
  | Return a => f a
  | Throw e => Throw e
  | Get k => Get (fun s => bind (k s) f)
  | Put u k => Put u (bind k f)
  | Await X q k => Await X q (fun r => bind (k r) f)
  end.

(** [try { p } catch (err) { h err }]. *)
Fixpoint try_catch {A} (p : t A) (h : thrown -> t A) : t A :=
  match p with
  | Return a => Return a
  | Throw e => h e
  | Get k => Get (fun s => try_catch (k s) h)
  | Put u k => Put u (try_catch k h)
  | Await X q k => Await X q (fun r => try_catch (k r) h)
  end.

(** [await q]: the value of the promise, or its rejection thrown. *)
Definition await {X} (q : request X) : t X :=
  Await X q (fun r => match r with
                      | Fulfilled x => Return x
                      | Rejected e => Throw e
                      end).

Definition call (u : Upd) : t unit := Put u (Return tt).

Definition read {V} (get : St -> V) : t V := Get (fun s => Return (get s)).

(** [data.p], for [data] a parsed body: it throws when [data] is [null]. *)
Definition property {B V} (get : B -> V) (data : body B) : t V :=
  match data with
  | Null type_error => Throw (ErrorObject type_error)
  | NonNull b => Return (get b)
  end.

(** Where a run stops. *)
Inductive paused (A : Type) : Type :=
| Finished (a : A)
| Uncaught (e : thrown)
| Blocked (X : Type) (q : request X) (k : settled X -> t A).

Arguments Finished {A} a.
Arguments Uncaught {A} e.
Arguments Blocked {A} X q k.

(** A call that waits for a promise: what it awaits and how it goes on. *)
Inductive task : Type :=
| Task (X : Type) (q : request X) (k : settled X -> t unit).

Definition tasks_of (o : paused unit) : list task :=
  match o with
  | Blocked X q k => [Task X q k]
  | _ => []
  end.

Variable apply : Upd -> St -> St.

(** Run up to the next [await]: the updates made, each with the store it
    leaves, and the store at the end. *)
Fixpoint run {A} (p : t A) (s : St) : paused A * St * list (Upd * St) :=
  match p with
  | Return a => (Finished a, s, [])
  | Throw e => (Uncaught e, s, [])
  | Get k => run (k s) s
  | Put u k =>
      let s' := apply u s in
      let '(o, s'', tr) := run k s' in
      (o, s'', (u, s') :: tr)
  | Await X q k => (Blocked X q k, s, [])
  end.

(** Run to the end, every awaited promise settled by [env] and nothing
    else touching the store meanwhile. *)
Fixpoint exec {A} (env : forall X, request X -> settled X) (p : t A) (s : St)
  : (A + thrown) * St :=
  match p with
  | Return a => (inl a, s)
  | Throw e => (inr e, s)
  | Get k => exec env (k s) s
  | Put u k => exec env k (apply u s)
  | Await X q k => exec env (k (env X q)) s
  end.

(** [safe I J p s]: run from [s], [p] only ever leaves stores that satisfy
    [I], and only ever waits in stores that satisfy [J]. *)
Fixpoint safe {A} (I J : St -> Prop) (p : t A) (s : St) : Prop :=
  match p with
  | Return _ | Throw _ => True
  | Get k => safe I J (k s) s
  | Put u k => I (apply u s) /\ safe I J k (apply u s)
  | Await X q k => J s /\ forall r, safe I J (k r) s
  end.

(** [silent C p]: as long as the stores it reads satisfy [C], [p] calls no
    setter. *)
Fixpoint silent {A} (C : St -> Prop) (p : t A) : Prop :=
  match p with
  | Return _ | Throw _ => True
  | Get k => forall s, C s -> silent C (k s)
  | Put _ _ => False
  | Await X q k => forall r, silent C (k r)
  end.

(** [resumes_silent C p]: whatever [p] does before, what it does after
    any of its awaits is silent. *)
Fixpoint resumes_silent {A} (C : St -> Prop) (p : t A) : Prop :=
  match p with
  | Return _ | Throw _ => True
  | Get k => forall s, resumes_silent C (k s)
  | Put _ k => resumes_silent C k
  | Await X q k => forall r, silent C (k r) /\ resumes_silent C (k r)
  end.

(** [settles R J K p s]: run from [s], [p] lets no exception escape, waits
    only in stores that satisfy [J] and ends only in stores that satisfy
    [K]; while it waits, the store may change as [R] allows. *)
Fixpoint settles {A} (R : St -> St -> Prop) (J K : St -> Prop) (p : t A)
    (s : St) : Prop :=
  match p with
  | Return _ => K s
  | Throw _ => False
  | Get k => settles R J K (k s) s
  | Put u k => settles R J K k (apply u s)
  | Await X q k => J s /\ forall r s', R s s' -> settles R J K (k r) s'
  end.

End Programs.

Arguments Return {St Upd request A} a.
Arguments Throw {St Upd request A} e.
Arguments Get {St Upd request A} k.
Arguments Put {St Upd request A} u k.
Arguments Await {St Upd request A} X q k.
Arguments bind {St Upd request A B} p f.
Arguments try_catch {St Upd request A} p h.
Arguments await {St Upd request X} q.
Arguments call {St Upd request} u.
Arguments read {St Upd request V} get.
Arguments property {St Upd request B V} get data.
Arguments Finished {St Upd request A} a.
Arguments Uncaught {St Upd request A} e.
Arguments Blocked {St Upd request A} X q k.
Arguments Task {St Upd request} X q k.
Arguments tasks_of {St Upd request} o.
Arguments run {St Upd request} apply {A} p s.
Arguments exec {St Upd request} apply {A} env p s.
Arguments safe {St Upd request} apply {A} I J p s.
Arguments silent {St Upd request A} C p.
Arguments resumes_silent {St Upd request A} C p.
Arguments settles {St Upd request} apply {A} R J K p s.

Declare Scope async_scope.
Delimit Scope async_scope with async.
Notation "x <- p ;; q" := (bind p (fun x => q))
  (at level 61, p at next level, right associativity) : async_scope.
Notation "p ;; q" := (bind p (fun _ => q))
  (at level 61, right associativity) : async_scope.

End Async.

(** ** components/UnitSquareSimulation.tsx *)

Module UnitSquareSimulation.
Import Async.
Local Open Scope async_scope.

Inductive SimStatus : Type := Idle | Running | Success | Error.

(** The three [useState] cells. *)
Record state : Type := mk
  { status : SimStatus;
    error : option string;
    collisions : list CollisionDto }.

Inductive update : Type :=
| setStatus (v : SimStatus)
| setError (v : option string)
| setCollisions (v : list CollisionDto).

Definition apply (u : update) (s : state) : state :=
  match u with
  | setStatus v => {| status := v; error := error s; collisions := collisions s |}
  | setError v => {| status := status s; error := v; collisions := collisions s |}
  | setCollisions v => {| status := status s; error := error s; collisions := v |}
  end.

(** What [runSimulation] awaits: the [fetch] itself, then [res.text()] or
    [res.json()], the latter taken at the type it is cast to.  The cast is
    not checked: a body of another shape is outside this model. *)
Inductive request : Type -> Type :=
| fetch (url method : string) (headers : list (string * string)) (body : json)
    : request Response
| text (res : Response) : request string
| json_of (res : Response) : request SimulateResponse.

Definition initial : state :=
  {| status := Idle; error := None; collisions := [] |}.

(** The request [runSimulation] sends; its body is the tree that
    [JSON.stringify] walks for the sample request. *)
Definition the_fetch : request Response :=
  fetch "http://127.0.0.1:3000/simulate" "POST"
        [("Content-Type", "application/json")]
        (Wire.SimulateRequest Samples.makeUnitSquareSimRequest).

Definition message_of (err : thrown) : string :=
  match err with
  | ErrorObject message => message
  | OtherValue => "Unknown error during simulation"
  end.

Definition runSimulation : Async.t state update request unit :=
  call (setStatus Running) ;;
  call (setError None) ;;
  call (setCollisions []) ;;
  let payload := Samples.makeUnitSquareSimRequest in
  try_catch
    (res <- await (fetch "http://127.0.0.1:3000/simulate" "POST"
                         [("Content-Type", "application/json")]
                         (Wire.SimulateRequest payload)) ;;
     (if negb (Response.ok res) then
        body <- await (text res) ;;
        Throw (ErrorObject ("HTTP " ++ decimal (Response.status res) ++ ": " ++ body))
      else Return tt) ;;
     data <- await (json_of res) ;;
     call (setCollisions (SimulateResponse.collisions data)) ;;
     call (setStatus Success))
    (fun err =>
       let msg := message_of err in
       call (setError (Some msg)) ;;
       call (setStatus Error)).

(** The state a call ends in when the promises it awaits settle as [env]
    says. *)
Definition outcome (env : forall X, request X -> settled X) (s : state)
  : (unit + thrown) * state :=
  exec apply env runSimulation s.

(** The component: its cells and the calls of [runSimulation] that wait
    for a promise.  The button is disabled while [status] is "running". *)
Record config : Type := mk_config
  { store : state; tasks : list (task state update request) }.

Definition button_disabled (s : state) : bool :=
  match status s with
  | Running => true
  | _ => false
  end.

(** One turn of the event loop, with the stores it leaves one after the
    other: a click on the enabled button, or a promise settling. *)
Inductive step : config -> list state -> config -> Prop :=
| click c o s' tr :
    button_disabled (store c) = false ->
    run apply runSimulation (store c) = (o, s', tr) ->
    step c (map snd tr) {| store := s'; tasks := tasks c ++ tasks_of o |}
| settle c before X q k after (r : settled X) o s' tr :
    tasks c = before ++ Task X q k :: after ->
    run apply (k r) (store c) = (o, s', tr) ->
    step c (map snd tr) {| store := s'; tasks := before ++ tasks_of o ++ after |}.

(** The configurations the component can be in, with every store it has
    had so far. *)
Inductive shown : config -> list state -> Prop :=
| shown_mount : shown {| store := initial; tasks := [] |} [initial]
| shown_step c hist tr c' :
    shown c hist -> step c tr c' -> shown c' (hist ++ tr).

(** The invariant of the three cells. *)
Definition consistent (s : state) : Prop :=
  (status s = Error -> collisions s = [] /\ error s <> None)
  /\ (status s = Success -> error s = None).

Definition waiting (s : state) : Prop := status s = Running.

(** A waiting call is harmless in the store [s] it will be resumed in; and
    at most one call waits at a time. *)
Definition task_ok (s : state) (t : task state update request) : Prop :=
  match t with
  | Task X q k => waiting s /\ forall r, safe apply consistent waiting (k r) s
  end.

Definition well_formed (c : config) : Prop :=
  consistent (store c)
  /\ Forall (task_ok (store c)) (tasks c)
  /\ List.length (tasks c) <= 1.

(** A server that answers 200 with [data]. *)
Definition served (data : SimulateResponse) : forall X, request X -> settled X :=
  fun X q =>
    match q in request X return settled X with
    | fetch _ _ _ _ => Fulfilled {| Response.ok := true; Response.status := 200 |}
    | text _ => Fulfilled ""
    | json_of _ => Fulfilled data
    end.

(** A server that answers 500 over a connection that breaks while the
    body is read. *)
Definition broken_body : forall X, request X -> settled X :=
  fun X q =>
    match q in request X return settled X with
    | fetch _ _ _ _ => Fulfilled {| Response.ok := false; Response.status := 500 |}
    | text _ => Rejected (ErrorObject "network error")
    | json_of _ => Rejected (ErrorObject "network error")
    end.

(** The store while a call waits: the previous result is gone. *)
Definition in_flight (s : state) : Prop :=
  status s = Running /\ error s = None /\ collisions s = [].

(** The store a call ends in: "success" or "error", never "idle" or
    "running". *)
Definition finished (s : state) : Prop :=
  match status s with
  | Idle | Running => False
  | Success => error s = None
  | Error => collisions s = [] /\ error s <> None
  end.

(** The store while no call waits: the initial one, or one a call ended
    in. *)
Definition at_rest (s : state) : Prop := s = initial \/ finished s.

Definition task_settles (s : state) (t : task state update request) : Prop :=
  match t with
  | Task X q k => forall r, settles apply eq in_flight finished (k r) s
  end.

(** What holds between two turns of the event loop. *)
Definition turn_ok (c : config) : Prop :=
  match tasks c with
  | [] => at_rest (store c)
  | [t] => in_flight (store c) /\ task_settles (store c) t
  | _ :: _ :: _ => False
  end.

(** The component right after the first click. *)
Definition clicked : config :=
  let '(o, s', _) := run apply runSimulation initial in
  {| store := s'; tasks := tasks_of o |}.

End UnitSquareSimulation.

(** ** components/HealthStatus.tsx *)

Module HealthStatus.
Import Async.
Local Open Scope async_scope.

Inductive Status : Type := Idle | Loading | Success | Error.

(** The two [useState] cells, and the variable [cancelled] that the effect
    declares and that [checkHealth] and the cleanup close over. *)
Record state : Type := mk
  { status : Status;
    message : option string;
    cancelled : bool }.

Inductive update : Type :=
| setStatus (v : Status)
| setMessage (v : option string).

Definition apply (u : update) (s : state) : state :=
  match u with
  | setStatus v => {| status := v; message := message s; cancelled := cancelled s |}
  | setMessage v => {| status := status s; message := v; cancelled := cancelled s |}
  end.

Definition assign_cancelled (b : bool) (s : state) : state :=
  {| status := status s; message := message s; cancelled := b |}.

(** What [checkHealth] awaits: the [fetch], then [res.json()].  Of a body
    that is not [null], [HealthResponse.status] is the text that
    [`${data.status}`] prints. *)
Inductive request : Type -> Type :=
| fetch (url : string) : request Response
| json_of (res : Response) : request (body HealthResponse).

Definition initial : state :=
  {| status := Idle; message := None; cancelled := false |}.

Definition message_of (err : thrown) : string :=
  match err with
  | ErrorObject message => message
  | OtherValue => "Unknown error while calling /health"
  end.

Definition checkHealth : Async.t state update request unit :=
  call (setStatus Loading) ;;
  call (setMessage None) ;;
  try_catch
    (res <- await (fetch "http://127.0.0.1:3000/health") ;;
     (if negb (Response.ok res) then
        Throw (ErrorObject ("HTTP " ++ decimal (Response.status res)))
      else Return tt) ;;
     data <- await (json_of res) ;;
     c <- read cancelled ;;
     if negb c then
       call (setStatus Success) ;;
       status_text <- property HealthResponse.status data ;;
       call (setMessage (Some ("API status: " ++ status_text)%string))
     else Return tt)
    (fun err =>
       c <- read cancelled ;;
       if negb c then
         call (setStatus Error) ;;
         let msg := message_of err in
         call (setMessage (Some msg))
       else Return tt).

(** The component: its store, whether its effect has run, and the calls
    that wait for a promise. *)
Record config : Type := mk_config
  { store : state; effect_ran : bool; tasks : list (task state update request) }.

(** What an observer of the component sees happen. *)
Inductive event : Type :=
| Updated (u : update)
| CleanedUp.

Definition is_update (e : event) : bool :=
  match e with
  | Updated _ => true
  | CleanedUp => false
  end.

(** One turn of the event loop: the effect runs (once, its dependency
    list being empty), its cleanup runs, or a promise settles. *)
Inductive step : config -> list event -> config -> Prop :=
| effect c o s' tr :
    effect_ran c = false ->
    run apply checkHealth (assign_cancelled false (store c)) = (o, s', tr) ->
    step c (map (fun p => Updated (fst p)) tr)
         {| store := s'; effect_ran := true; tasks := tasks c ++ tasks_of o |}
| cleanup c :
    effect_ran c = true ->
    step c [CleanedUp]
         {| store := assign_cancelled true (store c); effect_ran := true;
            tasks := tasks c |}
| settle c before X q k after (r : settled X) o s' tr :
    tasks c = before ++ Task X q k :: after ->
    run apply (k r) (store c) = (o, s', tr) ->
    step c (map (fun p => Updated (fst p)) tr)
         {| store := s'; effect_ran := effect_ran c;
            tasks := before ++ tasks_of o ++ after |}.

(** The configurations the component can be in, with everything that has
    happened so far, oldest first. *)
Inductive reached : config -> list event -> Prop :=
| reached_render :
    reached {| store := initial; effect_ran := false; tasks := [] |} []
| reached_step c log evs c' :
    reached c log -> step c evs c' -> reached c' (log ++ evs).

Definition is_cancelled (s : state) : Prop := cancelled s = true.
Definition quiet (e : event) : Prop := is_update e = false.

(** A waiting call of [checkHealth] calls no setter once [cancelled] is
    set, now or after any later await. *)
Definition task_quiet (t : task state update request) : Prop :=
  match t with
  | Task X q k =>
      forall r, silent is_cancelled (k r) /\ resumes_silent is_cancelled (k r)
  end.

Definition settled_down (c : config) (log : list event) : Prop :=
  Forall task_quiet (tasks c)
  /\ (In CleanedUp log -> is_cancelled (store c) /\ effect_ran c = true)
  /\ (forall pre post, log = pre ++ CleanedUp :: post -> Forall quiet post).

(** The state a call of [checkHealth] ends in when the promises it awaits
    settle as [env] says and [cancelled] does not change meanwhile. *)
Definition outcome (env : forall X, request X -> settled X) (s : state)
  : (unit + thrown) * state :=
  exec apply env checkHealth s.

Definition the_fetch : request Response := fetch "http://127.0.0.1:3000/health".

(** [cancelled] is all that changes while [checkHealth] waits. *)
Definition same_display (s s' : state) : Prop :=
  status s' = status s /\ message s' = message s.

(** The store while the check waits. *)
Definition checking (s : state) : Prop :=
  status s = Loading /\ message s = None.

(** The store once the check is over: an answer, an error, or nothing new
    because the component was unmounted. *)
Definition answered (s : state) : Prop :=
  match status s with
  | Idle => False
  | Loading => message s = None /\ cancelled s = true
  | Success => exists st, message s = Some ("API status: " ++ st)%string
  | Error => message s <> None
  end.

Definition task_settles (s : state) (t : task state update request) : Prop :=
  match t with
  | Task X q k =>
      forall r s', same_display s s' ->
                   settles apply same_display checking answered (k r) s'
  end.

(** What holds between two turns of the event loop. *)
Definition turn_ok (c : config) : Prop :=
  if effect_ran c then
    match tasks c with
    | [] => answered (store c)
    | [t] => checking (store c) /\ task_settles (store c) t
    | _ :: _ :: _ => False
    end
  else store c = initial /\ tasks c = [].

(** The component after its effect has run. *)
Definition mounted : config :=
  let '(o, s', _) := run apply checkHealth (assign_cancelled false initial) in
  {| store := s'; effect_ran := true; tasks := tasks_of o |}.

(** [a === b] on statuses. *)
Definition status_is (a b : Status) : bool :=
  match a, b with
  | Idle, Idle | Loading, Loading | Success, Success | Error, Error => true
  | _, _ => false
  end.

(** The render: the colour of the line ... *)
Definition color (s : state) : string :=
  let color := "#666" in
  let color := if status_is (status s) Loading then "#8888ff" else color in
  let color := if status_is (status s) Success then "#22aa55" else color in
  let color := if status_is (status s) Error then "#cc3344" else color in
  color.

(** ... a value spliced into a template literal ... *)
Definition template (m : option string) : string :=
  match m with
  | Some m => m
  | None => "null"
  end.

(** ... and the text after "Backend health: ": of the four children, a
    [false] and a [null] render as nothing. *)
Definition text (s : state) : string :=
  ((if status_is (status s) Idle then "idle" else "")
   ++ (if status_is (status s) Loading then "checking..." else "")
   ++ (if status_is (status s) Success
       then match message s with Some m => m | None => "" end
       else "")
   ++ (if status_is (status s) Error then "error: " ++ template (message s) else ""))%string.

(** The component unmounted while its check waits. *)
Definition unmounted : config :=
  {| store := assign_cancelled true (store mounted);
     effect_ran := true;
     tasks := tasks mounted |}.

End HealthStatus.

(* ================================================================= *)
(** * Properties *)

(** ** The heap of run-time objects *)

Section HeapFacts.
Import Js.

Lemma mapM_impl {A B} (f g : A -> option B) (l : list A) :
  (forall a b, In a l -> f a = Some b -> g a = Some b) ->
  forall bs, mapM f l = Some bs -> mapM g l = Some bs.
Proof.
  induction l as [|a l IH]; intros Hfg bs; simpl; [easy|].
  destruct (f a) as [b|] eqn:Ea; [|discriminate].
  destruct (mapM f l) as [bs'|] eqn:El; [|discriminate].
  intros [= <-].
  rewrite (Hfg a b (or_introl eq_refl) Ea).
  rewrite (IH (fun a' b' Hin => Hfg a' b' (or_intror Hin)) bs' eq_refl).
  reflexivity.
Qed.

Lemma mapM_Forall2 {A B} (f : A -> option B) (l : list A) (bs : list B) :
  Forall2 (fun a b => f a = Some b) l bs -> mapM f l = Some bs.
Proof.
  induction 1 as [|a b l bs Hab _ IH]; simpl; [reflexivity|].
  now rewrite Hab, IH.
Qed.

Lemma reify_ref (fuel : nat) (h : heap) (l : loc) :
  reify (S fuel) h (Ref l) =
  match nth_error h l with
  | None => None
  | Some (Arr es) => option_map JArr (mapM (reify fuel h) es)
  | Some (Obj ps) =>
      option_map JObj
        (mapM (fun p => option_map (pair (fst p)) (reify fuel h (snd p))) ps)
  end.
Proof. reflexivity. Qed.

(** More fuel never changes what is read. *)
Lemma reify_fuel_S (fuel : nat) :
  forall h v t, reify fuel h v = Some t -> reify (S fuel) h v = Some t.
Proof.
  induction fuel as [|fuel IH]; intros h v t H;
    destruct v as [n|s|b|l]; try exact H; try discriminate H.
  rewrite reify_ref in H. rewrite reify_ref.
  destruct (nth_error h l) as [[ps|es]|]; [| |discriminate H].
  - destruct (mapM _ ps) as [fs|] eqn:E; [|discriminate H].
    erewrite mapM_impl; [exact H| |exact E].
    intros [k v] q _ Hq; cbn [fst snd] in *.
    destruct (reify fuel h v) as [t'|] eqn:Ev; [|discriminate Hq].
    rewrite (IH _ _ _ Ev). exact Hq.
  - destruct (mapM _ es) as [ts|] eqn:E; [|discriminate H].
    erewrite mapM_impl; [exact H| |exact E].
    intros v q _. apply IH.
Qed.

Lemma reify_fuel_le (f f' : nat) (h : heap) (v : value) (t : json) :
  f <= f' -> reify f h v = Some t -> reify f' h v = Some t.
Proof.
  induction 1 as [|f' _ IH]; [easy|].
  intros H. apply reify_fuel_S, IH, H.
Qed.

(** Allocation only appends: what could be read before can be read after. *)
Lemma reify_frame (ext : heap) (fuel : nat) :
  forall h v t, reify fuel h v = Some t -> reify fuel (h ++ ext) v = Some t.
Proof.
  induction fuel as [|fuel IH]; intros h v t H;
    destruct v as [n|s|b|l]; try exact H; try discriminate H.
  rewrite reify_ref in H. rewrite reify_ref.
  destruct (nth_error h l) as [o|] eqn:El; [|discriminate H].
  rewrite nth_error_app1 by (apply nth_error_Some; congruence).
  rewrite El.
  destruct o as [ps|es].
  - destruct (mapM _ ps) as [fs|] eqn:E; [|discriminate H].
    erewrite mapM_impl; [exact H| |exact E].
    intros [k v] q _ Hq; cbn [fst snd] in *.
    destruct (reify fuel h v) as [t'|] eqn:Ev; [|discriminate Hq].
    rewrite (IH _ _ _ Ev). exact Hq.
  - destruct (mapM _ es) as [ts|] eqn:E; [|discriminate H].
    erewrite mapM_impl; [exact H| |exact E].
    intros v q _. apply IH.
Qed.

Lemma reads_frame (h ext : heap) (v : value) (t : json) :
  reads h v t -> reads (h ++ ext) v t.
Proof. intros [f H]. exists f. now apply reify_frame. Qed.

Lemma reads_functional (h : heap) (v : value) (t1 t2 : json) :
  reads h v t1 -> reads h v t2 -> t1 = t2.
Proof.
  intros [f1 H1] [f2 H2].
  apply (reify_fuel_le f1 (Nat.max f1 f2)) in H1; [|lia].
  apply (reify_fuel_le f2 (Nat.max f1 f2)) in H2; [|lia].
  congruence.
Qed.

(** One amount of fuel serves a whole list of reads. *)
Lemma reads_common_fuel (h : heap) (vs : list value) (ts : list json) :
  Forall2 (reads h) vs ts ->
  exists fuel, Forall2 (fun v t => reify fuel h v = Some t) vs ts.
Proof.
  induction 1 as [|v t vs ts [f Hv] _ [F IH]].
  - exists 0. constructor.
  - exists (Nat.max f F). constructor.
    + apply (reify_fuel_le f); [lia|exact Hv].
    + eapply Forall2_impl; [|exact IH].
      intros v' t' H'. apply (reify_fuel_le F); [lia|exact H'].
Qed.

Lemma builds_num (n : number) : builds (num n) (JNum n).
Proof.
  intros h. exists (Num n), []. rewrite app_nil_r.
  repeat split. now exists 0.
Qed.

Lemma builds_str (s : string) : builds (str s) (JStr s).
Proof.
  intros h. exists (Str s), []. rewrite app_nil_r.
  repeat split. now exists 0.
Qed.

Lemma builds_bool (b : bool) : builds (bool_ b) (JBool b).
Proof.
  intros h. exists (Bool b), []. rewrite app_nil_r.
  repeat split. now exists 0.
Qed.

Lemma builds_sequence (ms : list (M value)) (ts : list json) :
  Forall2 builds ms ts ->
  forall h, exists vs ext,
    sequence ms h = (vs, h ++ ext) /\ Forall2 (reads (h ++ ext)) vs ts.
Proof.
  induction 1 as [|m t ms ts Hm _ IH]; intros h.
  - exists [], []. rewrite app_nil_r. split; [reflexivity|constructor].
  - destruct (Hm h) as (v & e1 & Hv & _ & Hr).
    destruct (IH (h ++ e1)) as (vs & e2 & Hvs & Hrs).
    exists (v :: vs), (e1 ++ e2). rewrite app_assoc. split.
    + cbn [sequence]. unfold bind at 1. rewrite Hv.
      unfold bind at 1. rewrite Hvs. reflexivity.
    + constructor; [now apply reads_frame|exact Hrs].
Qed.

Lemma reify_props (fuel : nat) (h : heap) (props : list (string * M value))
    (fields : list (string * json)) :
  Forall2 (fun p q => fst p = fst q /\ builds (snd p) (snd q)) props fields ->
  forall vs,
    Forall2 (fun v t => reify fuel h v = Some t) vs (map snd fields) ->
    mapM (fun p => option_map (pair (fst p)) (reify fuel h (snd p)))
         (combine (map fst props) vs) = Some fields.
Proof.
  induction 1 as [|[k m] [k' t] props fields [Hk _] _ IH]; intros vs Hvs;
    inversion Hvs as [|v t' vs' ts' Hv Hvs' E1 E2]; subst; [reflexivity|].
  cbn [map fst snd combine mapM] in *. subst k'.
  rewrite Hv. cbn [option_map]. now rewrite (IH _ Hvs').
Qed.

Lemma builds_obj (props : list (string * M value)) (fields : list (string * json)) :
  Forall2 (fun p q => fst p = fst q /\ builds (snd p) (snd q)) props fields ->
  builds (obj props) (JObj fields).
Proof.
  intros HF h.
  assert (Hseq : Forall2 builds (map snd props) (map snd fields)).
  { clear h. induction HF as [|p q ps qs [_ Hb] _ IH]; constructor; assumption. }
  destruct (builds_sequence _ _ Hseq h) as (vs & ext & Hs & Hr).
  set (o := Obj (combine (map fst props) vs)).
  exists (Ref (List.length (h ++ ext))), (ext ++ [o]).
  rewrite app_assoc. split; [|split].
  - unfold obj, bind. rewrite Hs. reflexivity.
  - cbn [fresh_for]. rewrite length_app. lia.
  - assert (Hr' : Forall2 (reads ((h ++ ext) ++ [o])) vs (map snd fields)).
    { eapply Forall2_impl; [|exact Hr]. intros v t. apply reads_frame. }
    destruct (reads_common_fuel _ _ _ Hr') as [F HF'].
    exists (S F). rewrite reify_ref.
    rewrite nth_error_app2, Nat.sub_diag by lia. subst o. cbn [nth_error].
    now rewrite (reify_props _ _ _ _ HF _ HF').
Qed.

Lemma builds_arr (elems : list (M value)) (ts : list json) :
  Forall2 builds elems ts -> builds (arr elems) (JArr ts).
Proof.
  intros HF h.
  destruct (builds_sequence _ _ HF h) as (vs & ext & Hs & Hr).
  exists (Ref (List.length (h ++ ext))), (ext ++ [Arr vs]).
  rewrite app_assoc. split; [|split].
  - unfold arr, bind. rewrite Hs. reflexivity.
  - cbn [fresh_for]. rewrite length_app. lia.
  - assert (Hr' : Forall2 (reads ((h ++ ext) ++ [Arr vs])) vs ts).
    { eapply Forall2_impl; [|exact Hr]. intros v t. apply reads_frame. }
    destruct (reads_common_fuel _ _ _ Hr') as [F HF'].
    exists (S F). rewrite reify_ref.
    rewrite nth_error_app2, Nat.sub_diag by lia. cbn [nth_error].
    now rewrite (mapM_Forall2 _ _ _ HF').
Qed.

End HeapFacts.

(** ** samples.ts *)

Section SampleBuilders.
Import Js.

Lemma builds_result (m : M value) (t : json) :
  builds m t -> forall h, result_in m h t /\ keeps m h /\ returns_fresh m h.
Proof.
  intros Hb h. destruct (Hb h) as (v & ext & E & Hf & Hr).
  unfold result_in, keeps, returns_fresh. rewrite E.
  split; [exact Hr|]. split; [now exists ext|exact Hf].
Qed.

Ltac literal :=
  repeat first
    [ apply builds_num | apply builds_str | apply builds_bool
    | apply builds_obj | apply builds_arr
    | apply Forall2_nil
    | apply Forall2_cons; [try (split; [reflexivity|])|] ].

Lemma builds_unitSquareBoundary (name : option string) :
  builds (Js.unitSquareBoundary name)
         (Wire.BoundarySpec (Samples.unitSquareBoundary name)).
Proof. destruct name as [n|]; literal. Qed.

Lemma builds_unitSquareTableSpec :
  builds Js.unitSquareTableSpec (Wire.TableSpec Samples.unitSquareTableSpec).
Proof.
  apply builds_obj. repeat constructor; cbn [fst snd].
  - apply builds_unitSquareBoundary.
  - literal.
Qed.

Lemma builds_verticalOrbitInitialState :
  builds Js.verticalOrbitInitialState
         (Wire.BoundaryStateDto Samples.verticalOrbitInitialState).
Proof. literal. Qed.

Lemma builds_makeUnitSquareSimRequest :
  builds Js.makeUnitSquareSimRequest
         (Wire.SimulateRequest Samples.makeUnitSquareSimRequest).
Proof.
  apply builds_obj. repeat constructor; cbn [fst snd].
  - apply builds_unitSquareTableSpec.
  - apply builds_verticalOrbitInitialState.
  - literal.
  - literal.
Qed.

End SampleBuilders.

(** C8: the sample builders are pure and deterministic.  Called in any
    heap whatever (so also after any mutation of earlier results), each
    builder leaves the cells already there untouched and returns a newly
    allocated value that reads as one fixed tree: two calls return
    structurally equal values; and the segments built by
    [unitSquareBoundary] do not depend on [name], which only fills the
    [name] property. *)
Theorem sample_builders_deterministic :
  (forall h,
     Js.result_in Js.makeUnitSquareSimRequest h
       (Wire.SimulateRequest Samples.makeUnitSquareSimRequest)
     /\ Js.keeps Js.makeUnitSquareSimRequest h
     /\ Js.returns_fresh Js.makeUnitSquareSimRequest h)
  /\ (forall h,
     Js.result_in Js.unitSquareTableSpec h (Wire.TableSpec Samples.unitSquareTableSpec)
     /\ Js.keeps Js.unitSquareTableSpec h
     /\ Js.returns_fresh Js.unitSquareTableSpec h)
  /\ (forall h,
     Js.result_in Js.verticalOrbitInitialState h
       (Wire.BoundaryStateDto Samples.verticalOrbitInitialState)
     /\ Js.keeps Js.verticalOrbitInitialState h
     /\ Js.returns_fresh Js.verticalOrbitInitialState h)
  /\ (forall name h,
     Js.result_in (Js.unitSquareBoundary name) h
       (Wire.BoundarySpec (Samples.unitSquareBoundary name))
     /\ Js.keeps (Js.unitSquareBoundary name) h
     /\ Js.returns_fresh (Js.unitSquareBoundary name) h)
  /\ (forall name name',
     field "segments" (Wire.BoundarySpec (Samples.unitSquareBoundary name)) =
     field "segments" (Wire.BoundarySpec (Samples.unitSquareBoundary name')))
  /\ (forall name,
     field "name" (Wire.BoundarySpec (Samples.unitSquareBoundary (Some name))) =
     Some (JStr name))
  /\ field "name" (Wire.BoundarySpec (Samples.unitSquareBoundary None)) =
     Some (JStr "outer").
Proof.
  split; [exact (builds_result _ _ builds_makeUnitSquareSimRequest)|].
  split; [exact (builds_result _ _ builds_unitSquareTableSpec)|].
  split; [exact (builds_result _ _ builds_verticalOrbitInitialState)|].
  split; [exact (fun name => builds_result _ _ (builds_unitSquareBoundary name))|].
  split; [|split; reflexivity].
  intros [n|] [n'|]; reflexivity.
Qed.

(** ** apiTypes.ts against the specification *)

(** C1: a boundary state, a collision record and a simulation request
    travel as objects with exactly the fields the specification lists, in
    that order, each scalar field a plain number and each nested field the
    wire form of the nested record; nothing else is carried, so the wire
    form determines the record. *)
Theorem wire_types_mirror_spec :
  (forall b : BoundaryStateDto,
     keys (Wire.BoundaryStateDto b) = Spec.boundary_state_fields
     /\ Wire.BoundaryStateDto b =
        JObj [("component_index", JNum (BoundaryStateDto.component_index b));
              ("s", JNum (BoundaryStateDto.s b));
              ("theta", JNum (BoundaryStateDto.theta b))])
  /\ (forall c : CollisionDto,
     keys (Wire.CollisionDto c) = Spec.collision_record_fields
     /\ Wire.CollisionDto c =
        JObj [("step", JNum (CollisionDto.step c));
              ("component_index", JNum (CollisionDto.component_index c));
              ("segment_index", JNum (CollisionDto.segment_index c));
              ("s", JNum (CollisionDto.s c));
              ("theta", JNum (CollisionDto.theta c));
              ("x", JNum (CollisionDto.x c));
              ("y", JNum (CollisionDto.y c))])
  /\ (forall r : SimulateRequest,
     keys (Wire.SimulateRequest r) = Spec.simulation_request_fields
     /\ field "table" (Wire.SimulateRequest r) =
        Some (Wire.TableSpec (SimulateRequest.table r))
     /\ field "initial_state" (Wire.SimulateRequest r) =
        Some (Wire.BoundaryStateDto (SimulateRequest.initial_state r))
     /\ field "max_steps" (Wire.SimulateRequest r) =
        Some (JNum (SimulateRequest.max_steps r))
     /\ field "epsilon" (Wire.SimulateRequest r) =
        Some (JNum (SimulateRequest.epsilon r)))
  /\ (forall b b' : BoundaryStateDto,
     Wire.BoundaryStateDto b = Wire.BoundaryStateDto b' <-> b = b')
  /\ (forall c c' : CollisionDto,
     Wire.CollisionDto c = Wire.CollisionDto c' <-> c = c').
Proof.
  repeat split; try congruence.
  - destruct b, b'; cbn. intros [= -> -> ->]. reflexivity.
  - destruct c, c'; cbn. intros [= -> -> -> -> -> -> ->]. reflexivity.
Qed.

(** C4: a segment on the wire is one of exactly two shapes, told apart by
    [kind]: a line carrying [start] and [end], or a circular arc carrying
    [center], [radius], [start_angle], [end_angle] and [ccw]. *)
Theorem segment_is_closed_tagged_union (sg : SegmentSpec) :
  (exists st en,
     sg = line st en
     /\ kind sg = "line"
     /\ keys (Wire.SegmentSpec sg) = "kind" :: Spec.line_fields
     /\ Wire.SegmentSpec sg =
        JObj [("kind", JStr "line"); ("start", Wire.Vec2 st); ("end", Wire.Vec2 en)])
  \/ (exists c r a0 a1 ccw,
     sg = circular_arc c r a0 a1 ccw
     /\ kind sg = "circular_arc"
     /\ keys (Wire.SegmentSpec sg) = "kind" :: Spec.arc_fields
     /\ Wire.SegmentSpec sg =
        JObj [("kind", JStr "circular_arc"); ("center", Wire.Vec2 c);
              ("radius", JNum r); ("start_angle", JNum a0);
              ("end_angle", JNum a1); ("ccw", JBool ccw)]).
Proof.
  destruct sg as [st en|c r a0 a1 ccw].
  - left. exists st, en. repeat split.
  - right. exists c, r, a0, a1, ccw. repeat split.
Qed.

(** The [kind] read from the wire form is the discriminant, and it tells
    the two variants apart. *)
Lemma kind_discriminates (sg : SegmentSpec) :
  field "kind" (Wire.SegmentSpec sg) = Some (JStr (kind sg))
  /\ (kind sg = "line" <-> exists st en, sg = line st en)
  /\ (kind sg = "circular_arc" <->
      exists c r a0 a1 ccw, sg = circular_arc c r a0 a1 ccw).
Proof.
  destruct sg as [st en|c r a0 a1 ccw]; cbn; repeat split;
    try discriminate; eauto 6.
  - intros (? & ? & ? & ? & ? & [=]).
  - intros (? & ? & [=]).
Qed.

(** ** The unit-square sample *)

Section UnitSquare.
Local Open Scope float_scope.
Variables cos sin : number -> number.
Variable arc_sweep : number -> number -> bool -> number.

Let pt (x y : number) : Vec2 := {| Vec2.x := x; Vec2.y := y |}.

(** C2: [makeUnitSquareSimRequest] is the scenario of section 8: four
    lines of length one around the unit square, no obstacle, the start at
    [s = 0.5] on component 0 heading at [Math.PI / 2], four steps, and a
    tolerance of [1e-8]. *)
Theorem makeUnitSquareSimRequest_is_scenario :
  let r := Samples.makeUnitSquareSimRequest in
  let segs := BoundarySpec.segments (TableSpec.outer (SimulateRequest.table r)) in
  let init := SimulateRequest.initial_state r in
  List.length segs = 4%nat
  /\ Forall (fun sg => kind sg = "line"%string /\ Geometry.seg_length arc_sweep sg = 1) segs
  /\ map (Geometry.seg_start cos sin) segs = [pt 0 0; pt 1 0; pt 1 1; pt 0 1]
  /\ map (Geometry.seg_end cos sin) segs = [pt 1 0; pt 1 1; pt 0 1; pt 0 0]
  /\ TableSpec.obstacles (SimulateRequest.table r) = []
  /\ BoundaryStateDto.component_index init = 0
  /\ BoundaryStateDto.s init = 0.5
  /\ BoundaryStateDto.theta init = Math_PI / 2
  /\ BoundaryStateDto.theta init = 0x1.921fb54442d18p+0
  /\ SimulateRequest.max_steps r = 4
  /\ SimulateRequest.epsilon r = 1e-8.
Proof.
  cbv zeta. repeat split; try reflexivity.
  repeat constructor; vm_compute; reflexivity.
Qed.

(** C5: whatever its [name], the boundary built by [unitSquareBoundary] is
    a valid Boundary Curve: each segment ends where the next one starts,
    the last one ends where the first one starts, and every segment has a
    strictly positive length. *)
Theorem unitSquareBoundary_valid (name : option string) :
  Geometry.valid_boundary cos sin arc_sweep (Samples.unitSquareBoundary name).
Proof.
  split; [discriminate|]. repeat split.
  - intros i a b.
    destruct i as [|[|[|[|i]]]]; cbn; intros Ha Hb;
      try discriminate Hb; try (destruct i; discriminate Ha);
      injection Ha as <-; injection Hb as <-; reflexivity.
  - intros a b. cbn. intros [= <-] [= <-]. reflexivity.
  - intros a. cbn. intros [<-|[<-|[<-|[<-|[]]]]]; vm_compute; reflexivity.
Qed.

(** The invariant tells a loop from what is not one: no segment at all,
    the square with its left side missing, and the square with its top
    side shrunk to a point are all refused. *)
Example valid_boundary_refuses :
  ~ Geometry.valid_boundary cos sin arc_sweep
      {| BoundarySpec.name := "outer"; BoundarySpec.segments := [] |}
  /\ ~ Geometry.valid_boundary cos sin arc_sweep
      {| BoundarySpec.name := "outer";
         BoundarySpec.segments :=
           [ line (pt 0 0) (pt 1 0); line (pt 1 0) (pt 1 1);
             line (pt 1 1) (pt 0 1) ] |}
  /\ ~ Geometry.valid_boundary cos sin arc_sweep
      {| BoundarySpec.name := "outer";
         BoundarySpec.segments :=
           [ line (pt 0 0) (pt 1 0); line (pt 1 0) (pt 1 1);
             line (pt 1 1) (pt 1 1); line (pt 1 1) (pt 0 0) ] |}.
Proof.
  split; [|split].
  - intros [H _]. now apply H.
  - intros (_ & _ & H & _).
    specialize (H _ _ eq_refl eq_refl). cbn in H.
    apply (f_equal (fun v => PrimFloat.eqb (Vec2.y v) 0)) in H.
    vm_compute in H. discriminate H.
  - intros (_ & _ & _ & H).
    specialize (H (line (pt 1 1) (pt 1 1))
                  (or_intror (or_intror (or_introl eq_refl)))).
    vm_compute in H. discriminate H.
Qed.

End UnitSquare.

(** ** Where the sample starts

    Which point of the square the sample's [s = 0.5] stands for is decided
    by the engine, and the specification points two ways: section 4.3 and
    the glossary make [s] a fraction of the whole loop, section 8 and the
    text shown by [UnitSquareSimulation.tsx] ("starting at (0.5, 0)")
    place [s = 0.5] at the middle of the bottom edge.  Both readings are
    evaluated here; the client's code cannot tell which one is meant. *)

Section StartingPoint.
Local Open Scope float_scope.
Variables cos sin : number -> number.
Variable arc_sweep : number -> number -> bool -> number.
Variable name : option string.

Let square : BoundarySpec := Samples.unitSquareBoundary name.
Let s0 : number := BoundaryStateDto.s Samples.verticalOrbitInitialState.
Let by_length := Geometry.arc_length_weights arc_sweep.
Let by_count := Geometry.unit_weights.

(** With [s] a fraction of the whole loop, [s = 0.5] is half way round:
    segment 2 at local parameter 0, the corner [(1, 1)], under either
    weighting; the middle of the bottom edge is [s = 0.125]. *)
Remark sample_start_on_unit_square :
  Geometry.locate (by_length (BoundarySpec.segments square)) s0 = Some (2%nat, 0)
  /\ Geometry.locate (by_count (BoundarySpec.segments square)) s0 = Some (2%nat, 0)
  /\ Geometry.point_of_global cos sin arc_sweep by_length square s0
     = Some {| Vec2.x := 1; Vec2.y := 1 |}
  /\ Geometry.point_of_global cos sin arc_sweep by_count square s0
     = Some {| Vec2.x := 1; Vec2.y := 1 |}
  /\ Geometry.point_of_global cos sin arc_sweep by_length square 0.125
     = Some {| Vec2.x := 0.5; Vec2.y := 0 |}
  /\ Geometry.point_of_global cos sin arc_sweep by_count square 0.125
     = Some {| Vec2.x := 0.5; Vec2.y := 0 |}.
Proof.
  subst square s0 by_length by_count.
  destruct name; repeat split; vm_compute; reflexivity.
Qed.

(** With [s] a distance walked from [(0, 0)], [s = 0.5] is the middle of
    the bottom edge. *)
Remark sample_start_as_distance :
  Geometry.point_of_distance cos sin arc_sweep square s0
  = Some {| Vec2.x := 0.5; Vec2.y := 0 |}.
Proof. subst square s0. destruct name; vm_compute; reflexivity. Qed.

End StartingPoint.

(** ** The step loop of the engine *)

Section EngineFacts.
Import Engine.

Variable Table : Type.
Variable position : Table -> State.t -> Vec2.
Variable unit_vector : number -> option Vec2.
Variable nearest_forward_intersection :
  Table -> number -> Vec2 -> Vec2 -> option Hit.t.
Variable outward_normal : Table -> Hit.t -> Vec2.
Variable to_angle : Vec2 -> number.
Variable global_s : Table -> Hit.t -> number.
Variable table : Table.
Variable epsilon : number.
Variable max_steps : nat.

Let next : machine -> machine :=
  transition Table position unit_vector nearest_forward_intersection
    outward_normal to_angle global_s table epsilon max_steps.

Lemma transition_numbered (m : machine) : numbered m -> numbered (next m).
Proof.
  unfold numbered, next, transition. intros Hm.
  destruct (status m); [|exact Hm].
  destruct (unit_vector _); [|exact Hm].
  destruct (nearest_forward_intersection _ _ _ _); [|exact Hm].
  cbn [collisions step]. rewrite map_app, Hm, seq_S. reflexivity.
Qed.

Lemma transition_on_schedule (k : nat) (m : machine) :
  on_schedule max_steps k m -> on_schedule max_steps (S k) (next m).
Proof.
  unfold on_schedule, next, transition. intros Hm.
  destruct (status m) eqn:Es.
  - destruct Hm as [Hk Hlt].
    destruct (unit_vector _); [|unfold fail; cbn [status step]; lia].
    destruct (nearest_forward_intersection _ _ _ _);
      [|unfold fail; cbn [status step]; lia].
    cbn [status step]. rewrite Hk.
    destruct (Nat.eqb_spec (S k) max_steps); cbn; lia.
  - rewrite Es. lia.
Qed.

Lemma iter_invariant (init : State.t) (k : nat) :
  let m := Nat.iter k next (start max_steps init) in
  numbered m /\ on_schedule max_steps k m.
Proof.
  induction k as [|k [IHn IHs]]; cbn [Nat.iter].
  - split; [reflexivity|].
    unfold on_schedule, start; cbn [status step].
    destruct (Nat.eqb_spec max_steps 0); cbn; lia.
  - split; [now apply transition_numbered|now apply transition_on_schedule].
Qed.

(** C6: in the result of a run the [step] fields are 0, 1, 2, ... in this
    order without a gap, hence pairwise distinct; the run always reaches
    [Done], with at most [max_steps] records. *)
Theorem collision_steps_count_from_zero (init : State.t) :
  let m := simulate Table position unit_vector nearest_forward_intersection
             outward_normal to_angle global_s table epsilon max_steps init in
  let steps := map Collision.step (collisions m) in
  steps = seq 0 (List.length (collisions m))
  /\ NoDup steps
  /\ List.length (collisions m) <= max_steps
  /\ exists failure, status m = Done failure.
Proof.
  cbv zeta. unfold simulate. fold next.
  destruct (iter_invariant init max_steps) as [Hn Hs].
  set (m := Nat.iter max_steps next (start max_steps init)) in *.
  assert (Hlen : List.length (collisions m) = step m).
  { rewrite <- (length_map Collision.step), Hn. apply length_seq. }
  unfold numbered in Hn. unfold on_schedule in Hs.
  rewrite Hlen, Hn. repeat split.
  - apply seq_NoDup.
  - destruct (status m); lia.
  - destruct (status m) as [|e]; [lia|now exists e].
Qed.

End EngineFacts.

(** ** Asynchronous functions, in general *)

Section AsyncFacts.
Import Async.
Variables St Upd : Type.
Variable request : Type -> Type.
Variable apply : Upd -> St -> St.

Lemma run_safe {A} (I J : St -> Prop) (p : Async.t St Upd request A) :
  forall s o s' tr,
    safe apply I J p s ->
    run apply p s = (o, s', tr) ->
    Forall I (map snd tr)
    /\ (I s -> I s')
    /\ match o with
       | Blocked X q k => J s' /\ forall r, safe apply I J (k r) s'
       | _ => True
       end.
Proof.
  induction p as [a|e|k IH|u k IH|X q k IH]; intros s o s' tr Hsafe Hrun;
    cbn [run safe] in *.
  - injection Hrun as <- <- <-. repeat split; [constructor|tauto].
  - injection Hrun as <- <- <-. repeat split; [constructor|tauto].
  - exact (IH s s o s' tr Hsafe Hrun).
  - destruct Hsafe as [Hu Hk].
    destruct (run apply k (apply u s)) as [[o1 s1] tr1] eqn:E.
    injection Hrun as <- <- <-.
    destruct (IH _ _ _ _ Hk E) as (Htr & Hs & Ho).
    split; [|split].
    + constructor; assumption.
    + intros _. exact (Hs Hu).
    + exact Ho.
  - injection Hrun as <- <- <-. split; [constructor|]. split; [tauto|exact Hsafe].
Qed.

Lemma run_silent {A} (C : St -> Prop) (p : Async.t St Upd request A) :
  forall s o s' tr,
    silent C p -> C s ->
    run apply p s = (o, s', tr) ->
    tr = [] /\ s' = s
    /\ match o with
       | Blocked X q k => forall r, silent C (k r)
       | _ => True
       end.
Proof.
  induction p as [a|e|k IH|u k IH|X q k IH]; intros s o s' tr Hp Hs Hrun;
    cbn [run silent] in *.
  - injection Hrun as <- <- <-. tauto.
  - injection Hrun as <- <- <-. tauto.
  - exact (IH s s o s' tr (Hp s Hs) Hs Hrun).
  - contradiction.
  - injection Hrun as <- <- <-. repeat split. exact Hp.
Qed.

Lemma run_resumes_silent {A} (C : St -> Prop) (p : Async.t St Upd request A) :
  forall s o s' tr,
    resumes_silent C p ->
    run apply p s = (o, s', tr) ->
    match o with
    | Blocked X q k => forall r, silent C (k r) /\ resumes_silent C (k r)
    | _ => True
    end.
Proof.
  induction p as [a|e|k IH|u k IH|X q k IH]; intros s o s' tr Hp Hrun;
    cbn [run resumes_silent] in *.
  - now injection Hrun as <- <- <-.
  - now injection Hrun as <- <- <-.
  - exact (IH s s o s' tr (Hp s) Hrun).
  - destruct (run apply k (apply u s)) as [[o1 s1] tr1] eqn:E.
    injection Hrun as <- <- <-. exact (IH _ _ _ _ Hp E).
  - injection Hrun as <- <- <-. exact Hp.
Qed.

End AsyncFacts.

(** ** Strings *)

Lemma prefix_app (n post : string) :
  String.prefix n (n ++ post)%string = true.
Proof.
  induction n as [|a n IH]; cbn; [now destruct post|].
  destruct (ascii_dec a a); [exact IH|congruence].
Qed.

Lemma includes_infix (pre n post : string) :
  includes n (pre ++ n ++ post)%string = true.
Proof.
  induction pre as [|a pre IH]; cbn [append].
  - destruct (n ++ post)%string eqn:E; cbn [includes]; rewrite <- E, prefix_app;
      reflexivity.
  - cbn [includes]. rewrite IH. now destruct (String.prefix _ _).
Qed.

(** ** components/UnitSquareSimulation.tsx *)

Ltac settle_eqs :=
  repeat match goal with
    | H : Fulfilled _ = Fulfilled _ |- _ => injection H as H; subst
    | H : Rejected _ = Rejected _ |- _ => injection H as H; subst
    | H : Fulfilled _ = Rejected _ |- _ => discriminate H
    | H : Rejected _ = Fulfilled _ |- _ => discriminate H
    end.

Section SimulationCall.
Import Async UnitSquareSimulation.

Variable env : forall X, request X -> settled X.
Variable s : state.

Let final : state := snd (outcome env s).

(** C7, as the code has it: whatever the promises do, [runSimulation]
    returns and never leaves [status] at "running".  A rejected [fetch], a
    response that is not ok and a body that cannot be parsed all end in
    "error" with the message of what was thrown.  For a response that is
    not ok the message is [HTTP <status>: <body>], which includes the
    status code, when the body could be read; when reading the body fails,
    it is the message of that failure.  "success" means that a response
    was received, was ok and was parsed. *)
Theorem runSimulation_reports_every_failure :
  fst (outcome env s) = inl tt
  /\ status final <> Running
  /\ (forall e, env _ the_fetch = Rejected e ->
        status final = Error /\ error final = Some (message_of e))
  /\ (forall res, env _ the_fetch = Fulfilled res -> Response.ok res = false ->
        status final = Error
        /\ exists msg, error final = Some msg
           /\ (forall body, env _ (text res) = Fulfilled body ->
                 msg = ("HTTP " ++ decimal (Response.status res) ++ ": " ++ body)%string
                 /\ includes (decimal (Response.status res)) msg = true)
           /\ (forall e, env _ (text res) = Rejected e -> msg = message_of e))
  /\ (forall res e, env _ the_fetch = Fulfilled res -> Response.ok res = true ->
        env _ (json_of res) = Rejected e ->
        status final = Error /\ error final = Some (message_of e))
  /\ (status final = Success ->
        exists res data,
          env _ the_fetch = Fulfilled res /\ Response.ok res = true
          /\ env _ (json_of res) = Fulfilled data
          /\ collisions final = SimulateResponse.collisions data
          /\ error final = None).
Proof.
  subst final. unfold outcome, runSimulation, the_fetch.
  cbn [exec bind try_catch call await apply status error collisions fst snd].
  destruct (env _ (fetch _ _ _ _)) as [res|e0] eqn:Ef; cbn.
  2:{ repeat split; try discriminate; intros; settle_eqs; reflexivity. }
  destruct (Response.ok res) eqn:Eok; cbn.
  - destruct (env _ (json_of res)) as [data|e1] eqn:Ej; cbn.
    + repeat split; try discriminate; intros; settle_eqs;
        try rewrite Ej in *; settle_eqs; try congruence.
      exists res, data. repeat split; assumption.
    + repeat split; try discriminate; intros; settle_eqs;
        try rewrite Ej in *; settle_eqs; try congruence.
  - destruct (env _ (text res)) as [body|e1] eqn:Et; cbn.
    + repeat split; try discriminate; intros; settle_eqs; try congruence.
      eexists. split; [reflexivity|].
      rewrite Et. split; intros; settle_eqs.
      split; [reflexivity|apply (includes_infix "HTTP ")].
    + repeat split; try discriminate; intros; settle_eqs; try congruence.
      eexists. split; [reflexivity|].
      rewrite Et. split; intros; settle_eqs. reflexivity.
Qed.

End SimulationCall.

(** The claim C7 as worded fails in one case: a response that is not ok
    whose body cannot be read ends in "error" with a message that does not
    include the status code. *)
Lemma unread_body_hides_status_code :
  let final := snd (UnitSquareSimulation.outcome
                      UnitSquareSimulation.broken_body
                      UnitSquareSimulation.initial) in
  UnitSquareSimulation.status final = UnitSquareSimulation.Error
  /\ UnitSquareSimulation.error final = Some "network error"
  /\ ~ (exists msg, UnitSquareSimulation.error final = Some msg
                    /\ includes (decimal 500) msg = true).
Proof.
  cbv zeta. split; [reflexivity|]. split; [reflexivity|].
  intros (msg & Hmsg & Hin). vm_compute in Hmsg.
  injection Hmsg as <-. vm_compute in Hin. discriminate Hin.
Qed.

Section SimulationComponent.
Import Async UnitSquareSimulation.

Lemma consistent_running (s : state) : status s = Running -> consistent s.
Proof. intros H. split; rewrite H; discriminate. Qed.

(** Clearing first is what makes the two ends of the call consistent. *)
Lemma runSimulation_safe (s : state) :
  safe apply consistent waiting runSimulation s.
Proof.
  unfold runSimulation, waiting.
  cbn [safe bind try_catch call await apply status error collisions].
  repeat (split; [now apply consistent_running|]).
  split; [reflexivity|].
  intros [res|e]; cbn.
  2:{ split; [now apply consistent_running|].
      repeat split; cbn in *; congruence. }
  destruct (Response.ok res); cbn.
  - split; [reflexivity|]. intros [data|e]; cbn.
    + split; [now apply consistent_running|].
      repeat split; cbn in *; congruence.
    + split; [now apply consistent_running|].
      repeat split; cbn in *; congruence.
  - split; [reflexivity|]. intros [body|e]; cbn.
    + split; [now apply consistent_running|].
      repeat split; cbn in *; congruence.
    + split; [now apply consistent_running|].
      repeat split; cbn in *; congruence.
Qed.

Lemma tasks_of_ok (o : paused state update request unit) (s : state) :
  match o with
  | Blocked X q k => waiting s /\ forall r, safe apply consistent waiting (k r) s
  | _ => True
  end ->
  Forall (task_ok s) (tasks_of o) /\ List.length (tasks_of o) <= 1.
Proof.
  destruct o as [a|e|X q k]; cbn; intros H; split; auto.
Qed.

Lemma step_well_formed (c c' : config) (tr : list state) :
  well_formed c -> step c tr c' -> Forall consistent tr /\ well_formed c'.
Proof.
  intros (Hc & Hts & Hlen) Hstep.
  destruct Hstep as [c o s' tr Hbtn Hrun|c before X q k after r o s' tr Hts' Hrun].
  - assert (Hnone : tasks c = []).
    { destruct (tasks c) as [|[X q k] ts]; [reflexivity|].
      apply Forall_inv in Hts. cbn [task_ok] in Hts. destruct Hts as [Hw _].
      unfold button_disabled in Hbtn. unfold waiting in Hw.
      rewrite Hw in Hbtn. discriminate Hbtn. }
    destruct (run_safe _ _ _ _ _ _ _ _ _ _ _ (runSimulation_safe (store c)) Hrun)
      as (Htr & Hs' & Ho).
    destruct (tasks_of_ok o s' Ho) as [Hok Hl].
    split; [exact Htr|]. unfold well_formed; cbn [store tasks].
    rewrite Hnone. cbn [app]. auto.
  - rewrite Hts' in Hts, Hlen.
    apply Forall_elt in Hts as Hk. cbn [task_ok] in Hk. destruct Hk as [_ Hk].
    rewrite length_app in Hlen. cbn [List.length] in Hlen.
    destruct before; [|cbn in Hlen; lia].
    destruct after; [|cbn in Hlen; lia].
    destruct (run_safe _ _ _ _ _ _ _ _ _ _ _ (Hk r) Hrun) as (Htr & Hs' & Ho).
    destruct (tasks_of_ok o s' Ho) as [Hok Hl].
    split; [exact Htr|]. unfold well_formed; cbn [store tasks app].
    rewrite app_nil_r. auto.
Qed.

(** C9: in every store the component ever has, [status = "error"] comes
    with an empty [collisions] and a non-null [error], and
    [status = "success"] with a null [error]. *)
Theorem simulation_state_consistent (c : config) (hist : list state) :
  shown c hist -> Forall consistent hist.
Proof.
  intros H.
  enough (Forall consistent hist /\ well_formed c) by tauto.
  induction H as [|c hist tr c' _ [IHh IHc] Hstep].
  - assert (Hi : consistent initial) by (split; discriminate).
    split; [now constructor|]. repeat split; try discriminate; cbn; auto.
  - destruct (step_well_formed _ _ _ IHc Hstep) as [Htr Hc'].
    split; [|exact Hc']. apply Forall_app. split; assumption.
Qed.

End SimulationComponent.

(** ** components/HealthStatus.tsx *)

Section HealthComponent.
Import Async HealthStatus.

(** Both branches of [checkHealth] test [cancelled] before they call a
    setter. *)
Lemma checkHealth_resumes_silent : resumes_silent is_cancelled checkHealth.
Proof.
  unfold checkHealth, is_cancelled.
  repeat (cbn in *;
    match goal with
    | |- _ /\ _ => split
    | |- True => exact I
    | |- forall r : settled _, _ => intros [?|?]
    | |- forall s : state, _ => intros ?
    | |- _ = true -> _ => intros ?
    | H : false = true |- _ => discriminate H
    | |- context [negb (Response.ok ?r)] => destruct (Response.ok r)
    | |- context [negb (cancelled ?s)] => destruct (cancelled s) eqn:?
    | |- context [property _ ?d] => destruct d
    end).
Qed.

Lemma updates_no_cleanup (tr : list (update * state)) :
  ~ In CleanedUp (map (fun p => Updated (fst p)) tr).
Proof.
  induction tr as [|p tr IH]; cbn; [tauto|].
  intros [H|H]; [discriminate H|exact (IH H)].
Qed.

Lemma after_marker_app {A} (P : A -> Prop) (x : A) (log evs : list A) :
  (forall pre post, log = pre ++ x :: post -> Forall P post) ->
  Forall P evs ->
  forall pre post, log ++ evs = pre ++ x :: post -> Forall P post.
Proof.
  intros Hlog Hevs pre post E.
  apply app_eq_app in E. destruct E as (l & [[E1 E2]|[E1 E2]]).
  - destruct l as [|y l]; cbn [app] in E2.
    + rewrite <- E2 in Hevs. exact (Forall_inv_tail Hevs).
    + injection E2 as <- ->. rewrite E1 in Hlog.
      apply Forall_app. split; [|exact Hevs].
      apply (Hlog pre l). reflexivity.
  - rewrite E2 in Hevs. apply Forall_app in Hevs.
    exact (Forall_inv_tail (proj2 Hevs)).
Qed.

Lemma tasks_of_quiet (o : paused state update request unit) :
  match o with
  | Blocked X q k =>
      forall r, silent is_cancelled (k r) /\ resumes_silent is_cancelled (k r)
  | _ => True
  end ->
  Forall task_quiet (tasks_of o).
Proof. destruct o; cbn; auto. Qed.

Lemma step_settled_down (c c' : config) (log evs : list event) :
  settled_down c log -> step c evs c' -> settled_down c' (log ++ evs).
Proof.
  intros (Hts & Hcl & Hlog) Hstep.
  destruct Hstep as [c o s' tr Hran Hrun| c Hran
                    |c before X q k after r o s' tr Hts' Hrun].
  - (* the effect runs: no cleanup can have happened *)
    assert (Hno : ~ In CleanedUp log).
    { intros H. destruct (Hcl H) as [_ H']. congruence. }
    pose proof (updates_no_cleanup tr) as Hno'.
    split; [|split]; cbn [store effect_ran tasks].
    + apply Forall_app. split; [exact Hts|].
      apply tasks_of_quiet.
      exact (run_resumes_silent _ _ _ _ _ _ _ _ _ _ checkHealth_resumes_silent Hrun).
    + intros H. apply in_app_or in H. tauto.
    + intros pre post E. exfalso.
      assert (H : In CleanedUp (log ++ map (fun p => Updated (fst p)) tr)).
      { rewrite E. apply in_elt. }
      apply in_app_or in H. tauto.
  - (* the cleanup runs *)
    split; [|split]; cbn [store effect_ran tasks].
    + exact Hts.
    + intros _. split; reflexivity.
    + apply after_marker_app; [exact Hlog|repeat constructor].
  - (* a promise settles *)
    rewrite Hts' in Hts.
    pose proof (Forall_elt _ _ _ Hts) as Hk. cbn [task_quiet] in Hk.
    destruct (Hk r) as [Hsil Hres].
    pose proof (updates_no_cleanup tr) as Hno'.
    pose proof (run_resumes_silent _ _ _ _ _ _ _ _ _ _ Hres Hrun) as Ho.
    assert (Hin : In CleanedUp (log ++ map (fun p => Updated (fst p)) tr) ->
                  is_cancelled (store c) /\ effect_ran c = true
                  /\ tr = [] /\ s' = store c).
    { intros H. apply in_app_or in H. destruct H as [H|H]; [|tauto].
      destruct (Hcl H) as [Hc He].
      destruct (run_silent _ _ _ _ _ _ _ _ _ _ Hsil Hc Hrun) as (-> & -> & _).
      auto. }
    split; [|split]; cbn [store effect_ran tasks].
    + apply Forall_app in Hts. destruct Hts as [Hb Ha].
      apply Forall_inv_tail in Ha.
      apply Forall_app. split; [exact Hb|].
      apply Forall_app. split; [|exact Ha].
      apply tasks_of_quiet, Ho.
    + intros H. destruct (Hin H) as (Hc & He & _ & ->). auto.
    + intros pre post E.
      assert (H : In CleanedUp (log ++ map (fun p => Updated (fst p)) tr)).
      { rewrite E. apply in_elt. }
      destruct (Hin H) as (_ & _ & -> & _).
      cbn [map] in E. rewrite app_nil_r in E. exact (Hlog _ _ E).
Qed.

(** C10: once the cleanup of the effect has run, [HealthStatus] calls
    neither [setStatus] nor [setMessage] again, whichever way the request
    to /health ends. *)
Theorem no_update_after_cleanup (c : config) (log : list event) :
  reached c log ->
  forall pre post, log = pre ++ CleanedUp :: post ->
  Forall (fun e => is_update e = false) post.
Proof.
  intros H.
  enough (Hs : settled_down c log) by exact (proj2 (proj2 Hs)).
  induction H as [|c log evs c' _ IH Hstep].
  - split; [constructor|]. split.
    + intros [].
    + intros [|e pre] post E; discriminate E.
  - exact (step_settled_down _ _ _ _ IH Hstep).
Qed.

End HealthComponent.

(** How [runSimulation] gets there: it clears [error] and [collisions]
    before it fetches; resumed with a rejection it sets [error] and
    [status] only; resumed with a good response and then with its body it
    sets [collisions] and [status] only. *)
Lemma runSimulation_updates (s : UnitSquareSimulation.state) :
  exists k,
    Async.run UnitSquareSimulation.apply UnitSquareSimulation.runSimulation s
    = (Async.Blocked Response UnitSquareSimulation.the_fetch k,
       {| UnitSquareSimulation.status := UnitSquareSimulation.Running;
          UnitSquareSimulation.error := None;
          UnitSquareSimulation.collisions := [] |},
       [(UnitSquareSimulation.setStatus UnitSquareSimulation.Running,
         UnitSquareSimulation.apply
           (UnitSquareSimulation.setStatus UnitSquareSimulation.Running) s);
        (UnitSquareSimulation.setError None,
         {| UnitSquareSimulation.status := UnitSquareSimulation.Running;
            UnitSquareSimulation.error := None;
            UnitSquareSimulation.collisions := UnitSquareSimulation.collisions s |});
        (UnitSquareSimulation.setCollisions [],
         {| UnitSquareSimulation.status := UnitSquareSimulation.Running;
            UnitSquareSimulation.error := None;
            UnitSquareSimulation.collisions := [] |})])
    /\ (forall e s1,
          map fst (snd (Async.run UnitSquareSimulation.apply (k (Rejected e)) s1))
          = [UnitSquareSimulation.setError
               (Some (UnitSquareSimulation.message_of e));
             UnitSquareSimulation.setStatus UnitSquareSimulation.Error])
    /\ (forall res s1 data s2,
          Response.ok res = true ->
          exists k',
            Async.run UnitSquareSimulation.apply (k (Fulfilled res)) s1
            = (Async.Blocked SimulateResponse
                 (UnitSquareSimulation.json_of res) k', s1, [])
            /\ map fst (snd (Async.run UnitSquareSimulation.apply
                               (k' (Fulfilled data)) s2))
               = [UnitSquareSimulation.setCollisions
                    (SimulateResponse.collisions data);
                  UnitSquareSimulation.setStatus UnitSquareSimulation.Success]).
Proof.
  eexists. split; [reflexivity|]. split.
  - intros e s1. reflexivity.
  - intros res s1 data s2 Hok. cbn. rewrite Hok. cbn.
    eexists. split; reflexivity.
Qed.

(** ** Concrete runs *)

(** On the empty heap the builder allocates eighteen objects, and what it
    returns reads as the wire form of the sample. *)
Example makeUnitSquareSimRequest_on_empty_heap :
  let '(v, h) := Js.makeUnitSquareSimRequest [] in
  v = Js.Ref 17 /\ List.length h = 18
  /\ Js.reify 6 h v = Some (Wire.SimulateRequest Samples.makeUnitSquareSimRequest).
Proof. vm_compute. repeat split. Qed.

(** Two calls in a row return two different objects that read the same. *)
Example makeUnitSquareSimRequest_twice :
  let '(v1, h1) := Js.makeUnitSquareSimRequest [] in
  let '(v2, h2) := Js.makeUnitSquareSimRequest h1 in
  v1 <> v2 /\ Js.reify 6 h2 v1 = Js.reify 6 h2 v2 /\ Js.reify 6 h2 v1 <> None.
Proof. vm_compute. repeat split; discriminate. Qed.

Example decimal_500 : decimal 500 = "500".
Proof. reflexivity. Qed.

Example includes_status :
  includes "404" "HTTP 404: Not Found" = true
  /\ includes "404" "network error" = false.
Proof. split; reflexivity. Qed.

(** A server that answers well: the call ends in "success" with the
    collisions it was sent. *)
Example runSimulation_served (data : SimulateResponse) :
  UnitSquareSimulation.outcome (UnitSquareSimulation.served data)
    UnitSquareSimulation.initial
  = (inl tt,
     {| UnitSquareSimulation.status := UnitSquareSimulation.Success;
        UnitSquareSimulation.error := None;
        UnitSquareSimulation.collisions := SimulateResponse.collisions data |}).
Proof. reflexivity. Qed.

Section EngineRuns.
Local Open Scope float_scope.

Let origin : Vec2 := {| Vec2.x := 0.5; Vec2.y := 0 |}.
Let up : Vec2 := {| Vec2.x := 0; Vec2.y := 1 |}.
Let init : Engine.State.t :=
  {| Engine.State.component_index := 0; Engine.State.s := 0.5;
     Engine.State.theta := Math_PI / 2 |}.
Let top : Engine.Hit.t :=
  {| Engine.Hit.t_ := 1; Engine.Hit.component_index := 0;
     Engine.Hit.segment_index := 2; Engine.Hit.local_s := 0.5 |}.

(** The loop over a geometry that always hits: three steps, numbered from
    0, and the run is done. *)
Example engine_three_steps :
  let m := Engine.simulate unit (fun _ _ => origin) (fun _ => Some up)
             (fun _ _ _ _ => Some top) (fun _ _ => up) (fun _ => 0)
             (fun _ _ => 0.5) tt 1e-8 3 init in
  map Engine.Collision.step (Engine.collisions m) = [0; 1; 2]%nat
  /\ Engine.status m = Engine.Done None.
Proof. vm_compute. split; reflexivity. Qed.

(** The loop over a geometry that never hits: no record, and the error is
    reported. *)
Example engine_escapes :
  let m := Engine.simulate unit (fun _ _ => origin) (fun _ => Some up)
             (fun _ _ _ _ => None) (fun _ _ => up) (fun _ => 0)
             (fun _ _ => 0.5) tt 1e-8 3 init in
  Engine.collisions m = []
  /\ Engine.status m = Engine.Done (Some Engine.NoIntersectionError).
Proof. vm_compute. split; reflexivity. Qed.

(** No step asked for: nothing to do. *)
Example engine_no_step :
  let m := Engine.simulate unit (fun _ _ => origin) (fun _ => Some up)
             (fun _ _ _ _ => Some top) (fun _ _ => up) (fun _ => 0)
             (fun _ _ => 0.5) tt 1e-8 0 init in
  Engine.collisions m = [] /\ Engine.status m = Engine.Done None.
Proof. vm_compute. split; reflexivity. Qed.

End EngineRuns.

(** Without a cleanup the answer is shown: the same run of [HealthStatus]
    with the component still mounted ends with the two setter calls of
    the success branch. *)
Example health_check_succeeds :
  exists c,
    HealthStatus.reached c
      [HealthStatus.Updated (HealthStatus.setStatus HealthStatus.Loading);
       HealthStatus.Updated (HealthStatus.setMessage None);
       HealthStatus.Updated (HealthStatus.setStatus HealthStatus.Success);
       HealthStatus.Updated (HealthStatus.setMessage (Some "API status: ok"))]
    /\ HealthStatus.status (HealthStatus.store c) = HealthStatus.Success
    /\ HealthStatus.message (HealthStatus.store c) = Some "API status: ok".
Proof.
  eexists. split; [|split].
  - change [HealthStatus.Updated (HealthStatus.setStatus HealthStatus.Loading);
            HealthStatus.Updated (HealthStatus.setMessage None);
            HealthStatus.Updated (HealthStatus.setStatus HealthStatus.Success);
            HealthStatus.Updated (HealthStatus.setMessage (Some "API status: ok"))]
      with ((([] ++ [HealthStatus.Updated (HealthStatus.setStatus HealthStatus.Loading);
                     HealthStatus.Updated (HealthStatus.setMessage None)])
             ++ [])
            ++ [HealthStatus.Updated (HealthStatus.setStatus HealthStatus.Success);
                HealthStatus.Updated
                  (HealthStatus.setMessage (Some "API status: ok"))]).
    eapply HealthStatus.reached_step.
    + eapply HealthStatus.reached_step.
      * eapply HealthStatus.reached_step.
        -- apply HealthStatus.reached_render.
        -- eapply (HealthStatus.effect _ _ _
                     [(HealthStatus.setStatus HealthStatus.Loading, _);
                      (HealthStatus.setMessage None, _)]);
             [reflexivity|]. cbn. reflexivity.
      * cbn. eapply (HealthStatus.settle _ [] _ _ _ []
                       (Fulfilled {| Response.ok := true; Response.status := 200 |})
                       _ _ []);
          [reflexivity|]. cbn. reflexivity.
    + cbn. eapply (HealthStatus.settle _ [] _ _ _ []
                     (Fulfilled (NonNull {| HealthResponse.status := "ok" |})) _ _
                     [(HealthStatus.setStatus HealthStatus.Success, _);
                      (HealthStatus.setMessage (Some "API status: ok"), _)]);
        [reflexivity|]. cbn. reflexivity.
  - reflexivity.
  - reflexivity.
Qed.

(** ** The theorems at work on concrete runs *)

(** A click, then a [fetch] that is rejected: four stores after the first
    one, all consistent, the last one in "error". *)
Lemma simulation_state_consistent_witness :
  exists c hist,
    UnitSquareSimulation.shown c hist
    /\ List.length hist = 6
    /\ UnitSquareSimulation.status (UnitSquareSimulation.store c)
       = UnitSquareSimulation.Error
    /\ Forall UnitSquareSimulation.consistent hist.
Proof.
  assert (H : exists c hist,
             UnitSquareSimulation.shown c hist
             /\ List.length hist = 6
             /\ UnitSquareSimulation.status (UnitSquareSimulation.store c)
                = UnitSquareSimulation.Error).
  { eexists. eexists. split; [|split].
    - eapply UnitSquareSimulation.shown_step.
      + eapply UnitSquareSimulation.shown_step.
        * apply UnitSquareSimulation.shown_mount.
        * eapply UnitSquareSimulation.click; [reflexivity|]. cbn. reflexivity.
      + cbn. eapply (UnitSquareSimulation.settle _ [] _ _ _ []
                       (Rejected (ErrorObject "Failed to fetch")));
          [reflexivity|]. cbn. reflexivity.
    - reflexivity.
    - reflexivity. }
  destruct H as (c & hist & Hs & Hl & He).
  exists c, hist. repeat split; try assumption.
  exact (simulation_state_consistent c hist Hs).
Defined.

(** The effect runs, the component unmounts, and only then the request to
    /health is answered, and answered well: the two resumptions of
    [checkHealth] add nothing to the log. *)
Lemma no_update_after_cleanup_witness :
  let before := [HealthStatus.Updated (HealthStatus.setStatus HealthStatus.Loading);
                 HealthStatus.Updated (HealthStatus.setMessage None)] in
  exists c,
    HealthStatus.reached c (before ++ HealthStatus.CleanedUp :: [])
    /\ HealthStatus.tasks c = []
    /\ HealthStatus.status (HealthStatus.store c) = HealthStatus.Loading
    /\ Forall (fun e => HealthStatus.is_update e = false) [].
Proof.
  cbv zeta.
  assert (H : exists c,
             HealthStatus.reached c
               ([HealthStatus.Updated (HealthStatus.setStatus HealthStatus.Loading);
                 HealthStatus.Updated (HealthStatus.setMessage None)]
                ++ HealthStatus.CleanedUp :: [])
             /\ HealthStatus.tasks c = []
             /\ HealthStatus.status (HealthStatus.store c) = HealthStatus.Loading).
  { eexists. split; [|split].
    - change ([HealthStatus.Updated (HealthStatus.setStatus HealthStatus.Loading);
               HealthStatus.Updated (HealthStatus.setMessage None)]
              ++ [HealthStatus.CleanedUp])
        with (((([] ++ [HealthStatus.Updated (HealthStatus.setStatus HealthStatus.Loading);
                        HealthStatus.Updated (HealthStatus.setMessage None)])
                ++ [HealthStatus.CleanedUp]) ++ []) ++ []).
      eapply HealthStatus.reached_step.
      + eapply HealthStatus.reached_step.
        * eapply HealthStatus.reached_step.
          -- eapply HealthStatus.reached_step.
             ++ apply HealthStatus.reached_render.
             ++ eapply (HealthStatus.effect _ _ _
                          [(HealthStatus.setStatus HealthStatus.Loading, _);
                           (HealthStatus.setMessage None, _)]);
                  [reflexivity|]. cbn. reflexivity.
          -- apply HealthStatus.cleanup. reflexivity.
        * cbn. eapply (HealthStatus.settle _ [] _ _ _ []
                         (Fulfilled {| Response.ok := true; Response.status := 200 |})
                         _ _ []);
            [reflexivity|]. cbn. reflexivity.
      + cbn. eapply (HealthStatus.settle _ [] _ _ _ []
                       (Fulfilled (NonNull {| HealthResponse.status := "ok" |})) _ _ []);
          [reflexivity|]. cbn. reflexivity.
    - reflexivity.
    - reflexivity. }
  destruct H as (c & Hr & Ht & Hs).
  exists c. repeat split; try assumption.
  exact (no_update_after_cleanup c _ Hr _ _ eq_refl).
Defined.

(* ================================================================= *)
(** * Further properties of the client *)

(** ** Calls that settle *)

Section SettlingFacts.
Import Async.
Variables St Upd : Type.
Variable request : Type -> Type.
Variable apply : Upd -> St -> St.

Lemma run_settles {A} (R : St -> St -> Prop) (J K : St -> Prop)
    (p : Async.t St Upd request A) :
  forall s o s' tr,
    settles apply R J K p s ->
    run apply p s = (o, s', tr) ->
    match o with
    | Finished _ => K s'
    | Uncaught _ => False
    | Blocked X q k =>
        J s' /\ forall r s'', R s' s'' -> settles apply R J K (k r) s''
    end.
Proof.
  induction p as [a|e|k IH|u k IH|X q k IH]; intros s o s' tr Hp Hrun;
    cbn [run settles] in *.
  - injection Hrun as <- <- <-. exact Hp.
  - contradiction.
  - exact (IH s s o s' tr Hp Hrun).
  - destruct (run apply k (apply u s)) as [[o1 s1] tr1] eqn:E.
    injection Hrun as <- <- <-. exact (IH _ _ _ _ Hp E).
  - injection Hrun as <- <- <-. exact Hp.
Qed.

End SettlingFacts.

(** ** UnitSquareSimulation between two turns *)

Section SimulationTurns.
Import Async UnitSquareSimulation.

Lemma runSimulation_settles (s : state) :
  settles apply eq in_flight finished runSimulation s.
Proof.
  unfold runSimulation, in_flight.
  cbn [settles bind try_catch call await apply status error collisions].
  split; [repeat split|].
  intros [res|e] s' <-; cbn; [|split; [reflexivity|discriminate]].
  destruct (Response.ok res); cbn.
  - split; [repeat split|].
    intros [data|e] s' <-; cbn; [reflexivity|split; [reflexivity|discriminate]].
  - split; [repeat split|].
    intros [body|e] s' <-; cbn; split; try reflexivity; discriminate.
Qed.

(** Where a turn leaves the store: waiting, or in "success" or "error". *)
Lemma tasks_of_turn_ok (o : paused state update request unit) (s : state) :
  match o with
  | Finished _ => finished s
  | Uncaught _ => False
  | Blocked X q k =>
      in_flight s
      /\ forall r s', s = s' -> settles apply eq in_flight finished (k r) s'
  end ->
  turn_ok {| store := s; tasks := tasks_of o |}
  /\ (in_flight s \/ finished s).
Proof.
  destruct o as [a|e|X q k]; cbn; try tauto.
  - intros H. split; [right; exact H|right; exact H].
  - intros [Hf Hk]. split; [|left; exact Hf].
    split; [exact Hf|]. intros r. now apply Hk.
Qed.

Lemma step_turn_ok (c c' : config) (tr : list state) :
  turn_ok c -> step c tr c' ->
  turn_ok c' /\ (in_flight (store c') \/ finished (store c')).
Proof.
  unfold turn_ok at 1. intros Hc Hstep.
  destruct Hstep as [c o s' tr Hbtn Hrun|c before X q k after r o s' tr Hts Hrun].
  - destruct (tasks c) as [|t [|t' ts]]; [|exfalso|contradiction].
    + apply tasks_of_turn_ok.
      exact (run_settles _ _ _ _ _ _ _ _ _ _ _ _ (runSimulation_settles _) Hrun).
    + destruct Hc as [[Hrunning _] _].
      unfold button_disabled in Hbtn. rewrite Hrunning in Hbtn. discriminate.
  - rewrite Hts in Hc.
    destruct before as [|b before]; cbn [app] in Hc.
    + destruct after as [|a after]; [|contradiction].
      destruct Hc as [_ Hk]. cbn [task_settles] in Hk.
      cbn [app]. rewrite app_nil_r. apply tasks_of_turn_ok.
      exact (run_settles _ _ _ _ _ _ _ _ _ _ _ _ (Hk r) Hrun).
    + destruct before; cbn [app] in Hc; contradiction.
Qed.

Lemma not_idle_after_a_turn (s : state) :
  in_flight s \/ finished s -> status s <> Idle.
Proof.
  unfold in_flight, finished. intros [[H _]|H] E; rewrite E in H;
    [discriminate H|exact H].
Qed.

(** A reachable configuration is in order, and it is idle only when
    nothing has happened yet. *)
Lemma shown_turn_ok (c : config) (hist : list state) :
  shown c hist ->
  turn_ok c /\ (status (store c) = Idle -> hist = [initial]).
Proof.
  induction 1 as [|c hist tr c' _ [IH _] Hstep].
  - split; [left; reflexivity|reflexivity].
  - destruct (step_turn_ok _ _ _ IH Hstep) as [Hok Hs].
    split; [exact Hok|]. intros E.
    now destruct (not_idle_after_a_turn _ Hs).
Qed.

Lemma clicked_shown : exists hist, shown clicked hist.
Proof.
  eexists.
  exact (shown_step _ _ _ _ shown_mount
           (click {| store := initial; tasks := [] |} _ _ _ eq_refl eq_refl)).
Qed.

(** X1: at most one call of [runSimulation] waits at any time, one waits
    exactly while [status] is "running", and so the button is disabled
    exactly while a request is under way. *)
Theorem one_call_in_flight_while_running (c : config) (hist : list state) :
  shown c hist ->
  List.length (tasks c) <= 1
  /\ (tasks c <> [] <-> status (store c) = Running)
  /\ (button_disabled (store c) = true <-> tasks c <> []).
Proof.
  intros H. apply shown_turn_ok in H. destruct H as [H _].
  unfold turn_ok, at_rest, finished, in_flight in H.
  unfold button_disabled.
  destruct (tasks c) as [|t [|t' ts]]; [| |contradiction].
  - split; [cbn; lia|].
    destruct H as [->|H]; cbn;
      [|destruct (status (store c)); try contradiction];
      split; split; intros; try discriminate; congruence.
  - destruct H as [[Hr _] _]. rewrite Hr. cbn.
    split; [lia|]. split; split; intros; try reflexivity; discriminate.
Qed.

(** X2: between two turns, while [status] is "running" the result of the
    previous run is not there any more ([error] is null and [collisions]
    is empty); and [status] is "idle" only before anything has happened:
    every turn, a click or a promise settling, leaves a store that is not
    idle, so that the component never returns to "idle". *)
Theorem running_shows_no_stale_result (c : config) (hist : list state) :
  shown c hist ->
  (status (store c) = Running -> error (store c) = None /\ collisions (store c) = [])
  /\ (status (store c) = Idle -> store c = initial /\ hist = [initial])
  /\ (forall tr c', step c tr c' -> status (store c') <> Idle).
Proof.
  intros H. apply shown_turn_ok in H. destruct H as [H Hidle].
  split; [|split].
  - unfold turn_ok, at_rest, finished, in_flight in H.
    destruct (tasks c) as [|t [|t' ts]]; [| |contradiction].
    + destruct H as [->|H]; cbn; [discriminate|].
      intros E. rewrite E in H. contradiction.
    + tauto.
  - intros E. split; [|exact (Hidle E)].
    unfold turn_ok, at_rest, finished, in_flight in H.
    destruct (tasks c) as [|t [|t' ts]]; [| |contradiction].
    + destruct H as [->|H]; [reflexivity|]. rewrite E in H. contradiction.
    + destruct H as [[Hr _] _]. congruence.
  - intros tr c' Hstep.
    exact (not_idle_after_a_turn _ (proj2 (step_turn_ok _ _ _ H Hstep))).
Qed.

End SimulationTurns.

Lemma one_call_in_flight_while_running_witness :
  exists hist,
    UnitSquareSimulation.shown UnitSquareSimulation.clicked hist
    /\ List.length (UnitSquareSimulation.tasks UnitSquareSimulation.clicked) <= 1
    /\ (UnitSquareSimulation.tasks UnitSquareSimulation.clicked <> [] <->
        UnitSquareSimulation.status
          (UnitSquareSimulation.store UnitSquareSimulation.clicked)
        = UnitSquareSimulation.Running)
    /\ (UnitSquareSimulation.button_disabled
          (UnitSquareSimulation.store UnitSquareSimulation.clicked) = true <->
        UnitSquareSimulation.tasks UnitSquareSimulation.clicked <> []).
Proof.
  destruct clicked_shown as [hist H]. exists hist. split; [exact H|].
  exact (one_call_in_flight_while_running _ _ H).
Defined.

Lemma running_shows_no_stale_result_witness :
  exists hist,
    UnitSquareSimulation.shown UnitSquareSimulation.clicked hist
    /\ UnitSquareSimulation.status
         (UnitSquareSimulation.store UnitSquareSimulation.clicked)
       = UnitSquareSimulation.Running
    /\ UnitSquareSimulation.error
         (UnitSquareSimulation.store UnitSquareSimulation.clicked) = None
    /\ UnitSquareSimulation.collisions
         (UnitSquareSimulation.store UnitSquareSimulation.clicked) = [].
Proof.
  destruct clicked_shown as [hist H]. exists hist. split; [exact H|].
  split; [reflexivity|].
  exact (proj1 (running_shows_no_stale_result _ _ H) eq_refl).
Defined.

(** ** HealthStatus: what a check ends in *)

Lemma append_empty_r (s : string) : (s ++ "")%string = s.
Proof. induction s as [|a s IH]; cbn; [reflexivity|now rewrite IH]. Qed.


Section HealthCall.
Import Async HealthStatus.

Variable env : forall X, request X -> settled X.
Variable s : state.

(** The store as the effect leaves it for [checkHealth]: [cancelled] has
    just been declared [false]. *)
Let start : state := assign_cancelled false s.
Let final : state := snd (outcome env start).


End HealthCall.

(** ** HealthStatus between two turns *)

Section HealthTurns.
Import Async HealthStatus.

Lemma checkHealth_settles (s : state) :
  settles apply same_display checking answered checkHealth s.
Proof.
  unfold checkHealth, checking, same_display.
  cbn [settles bind try_catch call await read apply status message cancelled].
  split; [split; reflexivity|].
  intros [res|e] s1 [Hs1 Hm1]; cbn in *.
  2:{ destruct (cancelled s1) eqn:Ec; cbn; [|discriminate].
      unfold answered. rewrite Hs1. auto. }
  destruct (Response.ok res); cbn.
  - split; [split; assumption|].
    intros [[te|data]|e] s2 [Hs2 Hm2]; cbn;
      destruct (cancelled s2) eqn:Ec; cbn; unfold answered; cbn;
      try rewrite Ec; cbn;
      try discriminate; try (now eexists);
      rewrite Hs2, Hs1; split; congruence.
  - destruct (cancelled s1) eqn:Ec; cbn; [|discriminate].
    unfold answered. rewrite Hs1. auto.
Qed.

Lemma same_display_refl (s : state) : same_display s s.
Proof. split; reflexivity. Qed.

Lemma tasks_of_health_ok (o : paused state update request unit) (s : state) (b : bool) :
  match o with
  | Finished _ => answered s
  | Uncaught _ => False
  | Blocked X q k =>
      checking s
      /\ forall r s', same_display s s' ->
                      settles apply same_display checking answered (k r) s'
  end ->
  turn_ok {| store := s; effect_ran := true; tasks := tasks_of o |}.
Proof. destruct o as [a|e|X q k]; cbn; tauto. Qed.

Lemma step_health_turn_ok (c c' : config) (evs : list event) :
  turn_ok c -> step c evs c' -> turn_ok c'.
Proof.
  unfold turn_ok at 1. intros Hc Hstep.
  destruct Hstep as [c o s' tr Hran Hrun| c Hran
                    |c before X q k after r o s' tr Hts Hrun].
  - rewrite Hran in Hc. destruct Hc as [_ ->]. cbn [app].
    apply (tasks_of_health_ok o s' true).
    exact (run_settles _ _ _ _ _ _ _ _ _ _ _ _ (checkHealth_settles _) Hrun).
  - rewrite Hran in Hc. unfold turn_ok. cbn [effect_ran tasks store].
    destruct (tasks c) as [|t [|t' ts]]; [| |contradiction].
    + unfold answered in *. cbn [status message cancelled assign_cancelled].
      destruct (status (store c)); tauto.
    + destruct Hc as [Hch Hk]. split; [exact Hch|].
      destruct t as [X q k]. cbn [task_settles] in *.
      intros r s' Hs'. apply Hk. exact Hs'.
  - destruct (effect_ran c) eqn:Hran.
    2:{ destruct Hc as [_ Hnone]. rewrite Hnone in Hts.
        destruct before; discriminate Hts. }
    rewrite Hts in Hc.
    destruct before as [|b before]; cbn [app] in Hc.
    + destruct after as [|a after]; [|contradiction].
      destruct Hc as [_ Hk]. cbn [task_settles] in Hk.
      cbn [app]. rewrite app_nil_r. apply (tasks_of_health_ok o s' true).
      exact (run_settles _ _ _ _ _ _ _ _ _ _ _ _
               (Hk r _ (same_display_refl _)) Hrun).
    + destruct before; cbn [app] in Hc; contradiction.
Qed.

Lemma reached_turn_ok (c : config) (log : list event) :
  reached c log -> turn_ok c.
Proof.
  induction 1 as [|c log evs c' _ IH Hstep].
  - cbn. split; reflexivity.
  - exact (step_health_turn_ok _ _ _ IH Hstep).
Qed.

Lemma mounted_reached : exists log, reached mounted log.
Proof.
  eexists.
  exact (reached_step _ _ _ _ reached_render
           (effect {| store := initial; effect_ran := false; tasks := [] |}
                   _ _ _ eq_refl eq_refl)).
Qed.

(** X4: between two turns at most one check waits, and it waits only at
    "loading"; "loading" and "idle" come with a null message, "success"
    with [API status: ...], "error" with a message; and "loading" with no
    check waiting means that the component was unmounted. *)
Theorem health_display_consistent (c : config) (log : list event) :
  reached c log ->
  List.length (tasks c) <= 1
  /\ (tasks c <> [] -> status (store c) = Loading)
  /\ (status (store c) = Idle -> store c = initial /\ effect_ran c = false)
  /\ (status (store c) = Loading -> message (store c) = None)
  /\ (status (store c) = Loading -> tasks c = [] -> cancelled (store c) = true)
  /\ (status (store c) = Success ->
      exists st, message (store c) = Some ("API status: " ++ st)%string)
  /\ (status (store c) = Error -> message (store c) <> None).
Proof.
  intros H. apply reached_turn_ok in H.
  unfold turn_ok, answered, checking in H.
  destruct (effect_ran c).
  - destruct (tasks c) as [|t [|t' ts]]; [| |contradiction].
    + split; [cbn; lia|].
      destruct (status (store c)); try contradiction;
        repeat split; intros; try discriminate; try tauto; try congruence.
    + destruct H as [[Hs Hm] _]. rewrite Hs.
      repeat split; intros; try discriminate; try tauto; cbn; lia.
  - destruct H as [-> ->]. cbn.
    repeat split; intros; try discriminate; try tauto; lia.
Qed.

(** X5: between two turns the line shown after "Backend health:" is
    [idle], [checking...], [API status: ...] or [error: ] followed by the
    message thrown; the [null] that the template would print for a null
    message is never there. *)
Theorem health_text_never_null (c : config) (log : list event) :
  reached c log ->
  match status (store c) with
  | Idle => text (store c) = "idle"
  | Loading => text (store c) = "checking..."
  | Success => exists st, text (store c) = ("API status: " ++ st)%string
  | Error =>
      exists m, message (store c) = Some m
                /\ text (store c) = ("error: " ++ m)%string
  end.
Proof.
  intros H. apply reached_turn_ok in H.
  assert (Ha : effect_ran c = false /\ store c = initial
               \/ checking (store c) \/ answered (store c)).
  { unfold turn_ok in H. destruct (effect_ran c); [|tauto].
    destruct (tasks c) as [|t [|t' ts]]; tauto. }
  unfold checking, answered, text in *.
  destruct (store c) as [st msg cn]; cbn in *.
  destruct Ha as [[_ [= -> -> ->]]|[[-> ->]|Ha]]; cbn; try reflexivity.
  destruct st; cbn; try contradiction; try reflexivity.
  - destruct Ha as [stt ->]. exists stt. cbn. now rewrite append_empty_r.
  - destruct msg as [m|]; [|congruence]. exists m. split; reflexivity.
Qed.

End HealthTurns.

Lemma health_display_consistent_witness :
  exists log,
    HealthStatus.reached HealthStatus.mounted log
    /\ List.length (HealthStatus.tasks HealthStatus.mounted) <= 1
    /\ HealthStatus.status (HealthStatus.store HealthStatus.mounted)
       = HealthStatus.Loading
    /\ HealthStatus.message (HealthStatus.store HealthStatus.mounted) = None.
Proof.
  destruct mounted_reached as [log H]. exists log. split; [exact H|].
  pose proof (health_display_consistent _ _ H) as (Hl & Ht & _ & Hm & _).
  split; [exact Hl|]. split; [apply Ht; discriminate|].
  apply Hm, Ht. discriminate.
Defined.

Lemma health_text_never_null_witness :
  exists log,
    HealthStatus.reached HealthStatus.mounted log
    /\ HealthStatus.text (HealthStatus.store HealthStatus.mounted) = "checking...".
Proof.
  destruct mounted_reached as [log H]. exists log. split; [exact H|].
  exact (health_text_never_null _ _ H).
Defined.

(** ** HealthStatus: the order of the setter calls, and the cleanup *)

Section HealthOrder.
Import Async HealthStatus.

(** X6: [checkHealth] calls [setStatus] before [setMessage].  Resumed
    while mounted in a store whose message is null (as it is after the
    first two calls), it first leaves a store that pairs the new status
    with the null message, and only then stores the message: for a
    rejection the line would read [error: null] in between, for a good
    answer it would be empty.  A body that parses to [null] goes through
    "success" first and ends in "error". *)
Theorem checkHealth_sets_status_first (s : state) :
  cancelled s = false -> message s = None ->
  exists k,
    fst (fst (run apply checkHealth s)) = Blocked Response the_fetch k
    /\ (forall e,
          map snd (snd (run apply (k (Rejected e)) s))
          = [ {| status := Error; message := None; cancelled := false |};
              {| status := Error; message := Some (message_of e);
                 cancelled := false |} ]
          /\ text {| status := Error; message := None; cancelled := false |}
             = "error: null")
    /\ (forall res,
          Response.ok res = true ->
          exists k',
            fst (fst (run apply (k (Fulfilled res)) s))
            = Blocked (body HealthResponse) (json_of res) k'
            /\ (forall data,
                  map snd (snd (run apply (k' (Fulfilled (NonNull data))) s))
                  = [ {| status := Success; message := None; cancelled := false |};
                      {| status := Success;
                         message := Some ("API status: " ++ HealthResponse.status data)%string;
                         cancelled := false |} ])
            /\ (forall type_error,
                  map snd (snd (run apply (k' (Fulfilled (Null type_error))) s))
                  = [ {| status := Success; message := None; cancelled := false |};
                      {| status := Error; message := None; cancelled := false |};
                      {| status := Error; message := Some type_error;
                         cancelled := false |} ])
            /\ text {| status := Success; message := None; cancelled := false |}
               = "").
Proof.
  intros Hc Hm. destruct s as [st msg cn]; cbn in Hc, Hm. subst cn msg.
  eexists. split; [reflexivity|]. split.
  - intros e. split; reflexivity.
  - intros res Hok. cbn. rewrite Hok. cbn.
    eexists. split; [reflexivity|]. repeat split.
Qed.

Lemma reached_settled_down (c : config) (log : list event) :
  reached c log -> settled_down c log.
Proof.
  induction 1 as [|c log evs c' _ IH Hstep].
  - split; [constructor|]. split.
    + intros [].
    + intros [|e pre] post E; discriminate E.
  - exact (step_settled_down _ _ _ _ IH Hstep).
Qed.

(** X7: once the cleanup has run, no later turn changes what the
    component shows: [status] and [message] stay as they are, and
    [cancelled] stays set. *)
Theorem display_frozen_after_cleanup (c c' : config) (log evs : list event) :
  reached c log -> In CleanedUp log -> step c evs c' ->
  status (store c') = status (store c)
  /\ message (store c') = message (store c)
  /\ cancelled (store c') = true.
Proof.
  intros Hr Hin Hstep.
  destruct (reached_settled_down _ _ Hr) as (Hts & Hcl & _).
  destruct (Hcl Hin) as [Hc Hran].
  destruct Hstep as [c o s' tr Hran' Hrun| c _
                    |c before X q k after r o s' tr Hts' Hrun].
  - congruence.
  - repeat split.
  - rewrite Hts' in Hts. apply Forall_elt in Hts.
    destruct (Hts r) as [Hsil _].
    destruct (run_silent _ _ _ _ _ _ _ _ _ _ Hsil Hc Hrun) as (_ & -> & _).
    repeat split. exact Hc.
Qed.

Lemma unmounted_reached :
  exists log, reached unmounted log /\ In CleanedUp log.
Proof.
  destruct mounted_reached as [log H].
  exists (log ++ [CleanedUp]). split.
  - exact (reached_step _ _ _ _ H (cleanup mounted eq_refl)).
  - apply in_or_app. right. left. reflexivity.
Qed.

End HealthOrder.

Example health_text_of_null_message :
  HealthStatus.text
    {| HealthStatus.status := HealthStatus.Error;
       HealthStatus.message := None;
       HealthStatus.cancelled := false |} = "error: null"
  /\ HealthStatus.color
       {| HealthStatus.status := HealthStatus.Error;
          HealthStatus.message := None;
          HealthStatus.cancelled := false |} = "#cc3344"
  /\ HealthStatus.color HealthStatus.initial = "#666".
Proof. repeat split. Qed.

Lemma checkHealth_sets_status_first_witness :
  HealthStatus.cancelled (HealthStatus.store HealthStatus.mounted) = false
  /\ HealthStatus.message (HealthStatus.store HealthStatus.mounted) = None
  /\ exists k,
       fst (fst (Async.run HealthStatus.apply HealthStatus.checkHealth
                   (HealthStatus.store HealthStatus.mounted)))
       = Async.Blocked Response HealthStatus.the_fetch k.
Proof.
  split; [reflexivity|]. split; [reflexivity|].
  destruct (checkHealth_sets_status_first
              (HealthStatus.store HealthStatus.mounted) eq_refl eq_refl)
    as (k & Hk & _).
  exists k. exact Hk.
Defined.

(** The component is unmounted, then the request fails: nothing moves. *)
Lemma display_frozen_after_cleanup_witness :
  exists log c',
    HealthStatus.reached HealthStatus.unmounted log
    /\ In HealthStatus.CleanedUp log
    /\ HealthStatus.step HealthStatus.unmounted [] c'
    /\ HealthStatus.status (HealthStatus.store c') = HealthStatus.Loading
    /\ HealthStatus.message (HealthStatus.store c') = None
    /\ HealthStatus.cancelled (HealthStatus.store c') = true.
Proof.
  destruct unmounted_reached as (log & Hr & Hin).
  exists log. eexists.
  assert (Hstep : HealthStatus.step HealthStatus.unmounted []
            {| HealthStatus.store := HealthStatus.store HealthStatus.unmounted;
               HealthStatus.effect_ran := true;
               HealthStatus.tasks := [] |}).
  { exact (HealthStatus.settle HealthStatus.unmounted [] _ _ _ []
             (Rejected (ErrorObject "Failed to fetch")) _ _ [] eq_refl eq_refl). }
  split; [exact Hr|]. split; [exact Hin|]. split; [exact Hstep|].
  destruct (display_frozen_after_cleanup _ _ _ _ Hr Hin Hstep) as (Hs & Hm & Hc).
  split; [rewrite Hs; reflexivity|]. split; [rewrite Hm; reflexivity|exact Hc].
Defined.

(** ** samples.ts: results that share nothing *)

Section IsolatedBuilders.
Import Js.

Lemma isolated_num (n : number) : isolated (num n) (JNum n).
Proof.
  intros h. exists (Num n), []. rewrite app_nil_r.
  split; [reflexivity|]. intros h' _. now exists 0.
Qed.

Lemma isolated_str (s : string) : isolated (str s) (JStr s).
Proof.
  intros h. exists (Str s), []. rewrite app_nil_r.
  split; [reflexivity|]. intros h' _. now exists 0.
Qed.

Lemma isolated_sequence (ms : list (M value)) (ts : list json) :
  Forall2 isolated ms ts ->
  forall h, exists vs ext,
    sequence ms h = (vs, h ++ ext)
    /\ forall h', List.length h' = List.length h ->
                  Forall2 (reads (h' ++ ext)) vs ts.
Proof.
  induction 1 as [|m t ms ts Hm _ IH]; intros h.
  - exists [], []. rewrite app_nil_r. split; [reflexivity|constructor].
  - destruct (Hm h) as (v & e1 & Hv & Hr).
    destruct (IH (h ++ e1)) as (vs & e2 & Hvs & Hrs).
    exists (v :: vs), (e1 ++ e2). rewrite app_assoc. split.
    + cbn [sequence]. unfold bind at 1. rewrite Hv.
      unfold bind at 1. rewrite Hvs. reflexivity.
    + intros h' Hlen. rewrite app_assoc. constructor.
      * apply reads_frame, Hr, Hlen.
      * apply Hrs. rewrite !length_app. congruence.
Qed.

Lemma reify_keys (fuel : nat) (h : heap) (fields : list (string * json)) :
  forall vs,
    Forall2 (fun v t => reify fuel h v = Some t) vs (map snd fields) ->
    mapM (fun p => option_map (pair (fst p)) (reify fuel h (snd p)))
         (combine (map fst fields) vs) = Some fields.
Proof.
  induction fields as [|[k t] fields IH]; intros vs Hvs;
    inversion Hvs as [|v t' vs' ts' Hv Hvs' E1 E2]; subst; [reflexivity|].
  cbn [map fst snd combine mapM]. rewrite Hv. cbn [option_map].
  now rewrite (IH _ Hvs').
Qed.

Lemma isolated_obj (props : list (string * M value)) (fields : list (string * json)) :
  Forall2 (fun p q => fst p = fst q /\ isolated (snd p) (snd q)) props fields ->
  isolated (obj props) (JObj fields).
Proof.
  intros HF h.
  assert (Hseq : Forall2 isolated (map snd props) (map snd fields)).
  { clear h. induction HF as [|p q ps qs [_ Hb] _ IH]; constructor; assumption. }
  assert (Hkeys : map fst props = map fst fields).
  { clear h Hseq. induction HF as [|p q ps qs [Hk _] _ IH]; cbn; congruence. }
  destruct (isolated_sequence _ _ Hseq h) as (vs & ext & Hs & Hr).
  set (o := Obj (combine (map fst props) vs)).
  exists (Ref (List.length (h ++ ext))), (ext ++ [o]).
  rewrite app_assoc. split.
  - unfold obj, bind. rewrite Hs. reflexivity.
  - intros h' Hlen. rewrite app_assoc.
    assert (Hr' : Forall2 (reads ((h' ++ ext) ++ [o])) vs (map snd fields)).
    { eapply Forall2_impl; [|exact (Hr h' Hlen)]. intros v t. apply reads_frame. }
    destruct (reads_common_fuel _ _ _ Hr') as [F HFu].
    exists (S F). rewrite reify_ref.
    replace (List.length (h ++ ext)) with (List.length (h' ++ ext))
      by (rewrite !length_app; congruence).
    rewrite nth_error_app2, Nat.sub_diag by lia. subst o. cbn [nth_error].
    rewrite Hkeys in HFu |- *. now rewrite (reify_keys _ _ _ _ HFu).
Qed.

Lemma isolated_arr (elems : list (M value)) (ts : list json) :
  Forall2 isolated elems ts -> isolated (arr elems) (JArr ts).
Proof.
  intros HF h.
  destruct (isolated_sequence _ _ HF h) as (vs & ext & Hs & Hr).
  exists (Ref (List.length (h ++ ext))), (ext ++ [Arr vs]).
  rewrite app_assoc. split.
  - unfold arr, bind. rewrite Hs. reflexivity.
  - intros h' Hlen. rewrite app_assoc.
    assert (Hr' : Forall2 (reads ((h' ++ ext) ++ [Arr vs])) vs ts).
    { eapply Forall2_impl; [|exact (Hr h' Hlen)]. intros v t. apply reads_frame. }
    destruct (reads_common_fuel _ _ _ Hr') as [F HFu].
    exists (S F). rewrite reify_ref.
    replace (List.length (h ++ ext)) with (List.length (h' ++ ext))
      by (rewrite !length_app; congruence).
    rewrite nth_error_app2, Nat.sub_diag by lia. cbn [nth_error].
    now rewrite (mapM_Forall2 _ _ _ HFu).
Qed.

Ltac fresh_literal :=
  repeat first
    [ apply isolated_num | apply isolated_str
    | apply isolated_obj | apply isolated_arr
    | apply Forall2_nil
    | apply Forall2_cons; [try (split; [reflexivity|])|] ].

Lemma isolated_unitSquareBoundary (name : option string) :
  isolated (Js.unitSquareBoundary name)
           (Wire.BoundarySpec (Samples.unitSquareBoundary name)).
Proof. destruct name as [n|]; fresh_literal. Qed.

Lemma isolated_unitSquareTableSpec :
  isolated Js.unitSquareTableSpec (Wire.TableSpec Samples.unitSquareTableSpec).
Proof.
  apply isolated_obj. repeat constructor; cbn [fst snd].
  - apply isolated_unitSquareBoundary.
  - fresh_literal.
Qed.

Lemma isolated_verticalOrbitInitialState :
  isolated Js.verticalOrbitInitialState
           (Wire.BoundaryStateDto Samples.verticalOrbitInitialState).
Proof. fresh_literal. Qed.

(** X8: what a sample builder returns shares no object with anything that
    existed before the call: whatever is later written into any older
    object, an earlier result of the same builder included, the value
    returned still reads as the same tree.  A caller may change one sample
    request without changing another. *)
Theorem sample_results_share_nothing :
  isolated Js.makeUnitSquareSimRequest
           (Wire.SimulateRequest Samples.makeUnitSquareSimRequest)
  /\ isolated Js.unitSquareTableSpec (Wire.TableSpec Samples.unitSquareTableSpec)
  /\ isolated Js.verticalOrbitInitialState
              (Wire.BoundaryStateDto Samples.verticalOrbitInitialState)
  /\ forall name,
       isolated (Js.unitSquareBoundary name)
                (Wire.BoundarySpec (Samples.unitSquareBoundary name)).
Proof.
  split; [|split; [exact isolated_unitSquareTableSpec|
                   split; [exact isolated_verticalOrbitInitialState|
                           exact isolated_unitSquareBoundary]]].
  apply isolated_obj. repeat constructor; cbn [fst snd].
  - apply isolated_unitSquareTableSpec.
  - apply isolated_verticalOrbitInitialState.
  - fresh_literal.
  - fresh_literal.
Qed.

End IsolatedBuilders.

(** The first request is overwritten after the second one was built: the
    second one still reads as the sample. *)
Example second_request_survives_first :
  let '(v1, h1) := Js.makeUnitSquareSimRequest [] in
  let '(v2, h2) := Js.makeUnitSquareSimRequest h1 in
  let wrecked := map (fun _ => Js.Arr []) h1 ++ skipn (List.length h1) h2 in
  Js.reify 6 wrecked v1 = Some (JArr [])
  /\ Js.reify 6 wrecked v2
     = Some (Wire.SimulateRequest Samples.makeUnitSquareSimRequest).
Proof. vm_compute. split; reflexivity. Qed.
